(** * Stella's RewindManager: a shallow embedding and its properties

    The development follows [src/common/RewindManager.hxx] and
    [src/common/RewindManager.cxx].  The manager keeps a [std::list] of
    captured machine states together with an iterator into it; capture
    ([addState]) compacts the list once it holds [MAX_SIZE] entries, and
    [rewindState] hands one of the stored states back to the emulator.

    Conventions of the embedding:
    - [uInt64] and [uInt32] values are integers in [Z]; every operation the
      C++ code performs on them is followed by its wrap-around, written
      [wrap64] and [wrap32];
    - the list is kept oldest first, as [push_back] builds it; reverse
      iterators are positions of the reversed list;
    - a call whose C++ behaviour is undefined (dereferencing [rend()],
      [pop_back] on an empty list, erasing [end()], ...) has no result:
      member functions live in a state-and-failure monad and answer [None]
      there;
    - the collaborators (state manager, TIA, frame buffer) are not part of
      these files: what they answer is an input of a call and what is asked
      of them is recorded in a log of [Event]s. *)

From Stdlib.Strings Require Import String Ascii Byte.
From Stdlib Require Import DecimalString.
From Stdlib Require Import ZArith List Bool Lia Sorted.
Import ListNotations.

Local Open Scope Z_scope.

(** ** Machine integers *)

Definition wrap64 (z : Z) : Z := z mod 2 ^ 64.
Definition wrap32 (z : Z) : Z := z mod 2 ^ 32.

(** [operator<<] on an unsigned integer: its decimal digits. *)
Definition decimal (z : Z) : string :=
  NilZero.string_of_uint (N.to_uint (Z.to_N z)).

(** ** Constants of RewindManager.hxx *)

Module Const.
Definition FRAME_CYCLES : Z := 76 * 262 * 60.
Definition SINGLE_STEPS : Z := 60.
Definition SECOND_STEPS : Z := 10.
Definition MERGE_COUNT : Z := 4.
Definition MAX_SIZE : Z := SINGLE_STEPS + (SECOND_STEPS - MERGE_COUNT) + 46.
End Const.
Import Const.

(** ** Data *)

(** [struct RewindState]: the serialized machine and the two counters read
    from the TIA when it was captured. *)
Record RewindState : Type := mkRewindState {
  data : list byte;
  cycles : Z;
  frames : Z
}.

(** A [std::list] iterator: past the end, or at the element of a given index
    (counted from [begin()]). *)
Inductive Iter : Type :=
| ItEnd
| ItAt (i : nat).

(** [myStateList.begin()]: on an empty list it is [end()]. *)
Definition list_begin {A : Type} (l : list A) : Iter :=
  match l with
  | [] => ItEnd
  | _ :: _ => ItAt 0
  end.

(** The data members of [class RewindManager]. *)
Record RewindManager : Type := mkRewindManager {
  myStateList : list RewindState;
  myCurrentIt : Iter;
  myFrameLst : list Z;
  myStateCount : Z;
  myLastFrames : Z
}.

(** What the manager reads from [myOSystem.console().tia()]. *)
Record Console : Type := mkConsole {
  tia_cycles : Z;
  tia_frameCount : Z;
  tia_scanlinesLastFrame : Z
}.

(** Requests sent to the collaborators. *)
Inductive Event : Type :=
| LoadState (s : RewindState)
| LoadDisplay (s : RewindState)
| ShowMessage (text : string).

(** Everything a member function can read or change. *)
Record Machine : Type := mkMachine {
  rm : RewindManager;
  console : Console;
  events : list Event
}.

(** ** The monad of member functions *)

Definition M (A : Type) : Type := Machine -> option (A * Machine).

Definition ret {A : Type} (a : A) : M A := fun w => Some (a, w).

Definition bind {A B : Type} (c : M A) (k : A -> M B) : M B :=
  fun w => match c w with
           | Some (a, w') => k a w'
           | None => None
           end.

Definition getRM : M RewindManager := fun w => Some (rm w, w).
Definition getConsole : M Console := fun w => Some (console w, w).

Definition putRM (m : RewindManager) : M unit :=
  fun w => Some (tt, mkMachine m (console w) (events w)).

Definition putConsole (c : Console) : M unit :=
  fun w => Some (tt, mkMachine (rm w) c (events w)).

Definition emit (e : Event) : M unit :=
  fun w => Some (tt, mkMachine (rm w) (console w) (events w ++ [e])).

Definition liftOpt {A : Type} (o : option A) : M A :=
  fun w => match o with
           | Some a => Some (a, w)
           | None => None
           end.

Declare Scope rm_scope.
Delimit Scope rm_scope with rm.
Notation "x <- c ;; k" := (bind c (fun x => k))
  (at level 61, c at next level, right associativity) : rm_scope.
Notation "c ;;; k" := (bind c (fun _ => k))
  (at level 61, right associativity) : rm_scope.

(** ** getMessage *)

(** [RewindManager::getMessage(uInt64 cylcesTo)], as a function of the two
    values it reads from the TIA.  [diff] is a [uInt64]: the subtraction
    wraps, and so does the negation in the first branch. *)
Definition getMessage_of (now scanlines cylcesTo : Z) : string :=
  let diff := wrap64 (now - cylcesTo) in
  let '(msg, diff) :=
    if diff <? 0
    then ("Unwind "%string, wrap64 (- diff))
    else ("Rewind "%string, diff) in
  let count_unit :=
    if diff <? 76 then
      (decimal diff ++ " cycle(s)")%string
    else if diff <? wrap32 (76 * scanlines) then
      (decimal (diff / 76) ++ " scanline(s)")%string
    else if diff <? 76 * 262 * 60 then
      (decimal (diff / 76 / 262 / 60) ++ " frame(s)")%string
    else if diff <? 76 * 262 * 60 * 60 then
      (decimal (diff / 76 / 262 / 60 / 60) ++ " second(s)")%string
    else
      (decimal (diff / 76 / 262 / 60 / 60 / 60) ++ " minute(s)")%string in
  (msg ++ count_unit)%string.

Definition getMessage (cylcesTo : Z) : M string :=
  (c <- getConsole ;;
   ret (getMessage_of (tia_cycles c) (tia_scanlinesLastFrame c) cylcesTo))%rm.

(** ** Updating one data member *)

Definition withStateList (l : list RewindState) (m : RewindManager) :=
  mkRewindManager l (myCurrentIt m) (myFrameLst m) (myStateCount m)
                  (myLastFrames m).

Definition withCurrentIt (it : Iter) (m : RewindManager) :=
  mkRewindManager (myStateList m) it (myFrameLst m) (myStateCount m)
                  (myLastFrames m).

Definition withFrameLst (a : list Z) (m : RewindManager) :=
  mkRewindManager (myStateList m) (myCurrentIt m) a (myStateCount m)
                  (myLastFrames m).

Definition withStateCount (n : Z) (m : RewindManager) :=
  mkRewindManager (myStateList m) (myCurrentIt m) (myFrameLst m) n
                  (myLastFrames m).

Definition withLastFrames (n : Z) (m : RewindManager) :=
  mkRewindManager (myStateList m) (myCurrentIt m) (myFrameLst m)
                  (myStateCount m) n.

Definition size (m : RewindManager) : Z := Z.of_nat (length (myStateList m)).

(** ** The constructor, empty and clear *)

(** The constructor leaves the array [myFrameLst] uninitialised: its content
    is whatever the memory held, here [garbage]. *)
Definition RewindManager_new (garbage : list Z) : RewindManager :=
  let myStateList := @nil RewindState in
  mkRewindManager myStateList (list_begin myStateList) garbage 0 0.

Definition empty : M bool :=
  (m <- getRM ;; ret (size m =? 0))%rm.

Definition clear : M unit :=
  (m <- getRM ;; putRM (withStateList [] m))%rm.

(** ** debugList *)

(** The values [debugList] stores in [myFrameLst[0 .. size-1]]: the frame
    distance of every entry to the one before it ([uInt64] subtraction). *)
Fixpoint frameSteps (lastFrames : Z) (l : list RewindState) : list Z :=
  match l with
  | [] => []
  | s :: rest => wrap64 (frames s - lastFrames) :: frameSteps (frames s) rest
  end.

(** [*it] with [it = begin()] needs a first element, and the array has
    [MAX_SIZE] cells. *)
Definition debugList_of (l : list RewindState) (a : list Z)
  : option (list Z) :=
  match l with
  | [] => None
  | first :: _ =>
      if Z.of_nat (length l) <=? MAX_SIZE
      then Some (frameSteps (frames first) l ++ skipn (length l) a)
      else None
  end.

Definition debugList : M unit :=
  (m <- getRM ;;
   a <- liftOpt (debugList_of (myStateList m) (myFrameLst m)) ;;
   putRM (withFrameLst a m))%rm.

(** ** compressStates *)

(** [thisStep]: the [uInt64] difference of the [cycles] of the entries at
    [prevRit] and [rit], cut to the 32 bits of a [uInt32]. *)
Definition cycleStep (older newer : RewindState) : Z :=
  wrap32 (wrap64 (cycles newer - cycles older)).

(** One pass through the body of the [do ... while] loop.  [cur] is the
    entry [rit] refers to and [newer] the entries after it in list order, so
    that its head is [*prevRit]; [ritErase.base()] is the entry after that
    one.  The result is what is left of [newer], and the two counters. *)
Definition scanBody (newer : list RewindState) (cur : RewindState)
           (lastStep stepCount : Z)
  : option (list RewindState * Z * Z) :=
  match newer with
  | [] => None
  | prev :: after =>
      let thisStep := cycleStep cur prev in
      if thisStep =? lastStep then
        Some (newer, lastStep, wrap32 (stepCount + 1))
      else if stepCount >=? MERGE_COUNT then
        match after with
        | [] => None
        | _ :: after' => Some (prev :: after', thisStep, 2)
        end
      else
        Some (newer, thisStep, 1)
  end.

(** The loop: [older] holds the entries before [cur], nearest first, which
    is the order in which [++rit] visits them.  It ends when [rit] reaches
    [rend()] and answers the whole list, oldest first, with [stepCount]. *)
Fixpoint scanStates (newer : list RewindState) (cur : RewindState)
         (older : list RewindState) (lastStep stepCount : Z) {struct older}
  : option (list RewindState * Z) :=
  match scanBody newer cur lastStep stepCount with
  | None => None
  | Some (newer', lastStep', stepCount') =>
      match older with
      | [] => Some (cur :: newer', stepCount')
      | next :: older' =>
          scanStates (cur :: newer') next older' lastStep' stepCount'
      end
  end.

(** [itErase = begin(); itErase++; erase(itErase)]. *)
Definition eraseSecond (l : list RewindState) : option (list RewindState) :=
  match l with
  | first :: _ :: rest => Some (first :: rest)
  | _ => None
  end.

(** [compressStates] on the list alone.  [std::advance(rit, SINGLE_STEPS)]
    steps over the [SINGLE_STEPS] newest entries. *)
Definition compressStates_of (l : list RewindState)
  : option (list RewindState) :=
  let rl := rev l in
  let steps := Z.to_nat SINGLE_STEPS in
  match skipn steps rl with
  | [] => None
  | cur :: older =>
      match scanStates (rev (firstn steps rl)) cur older 0 0 with
      | None => None
      | Some (l', stepCount) =>
          if (stepCount >=? MERGE_COUNT)
             || (Z.of_nat (length l') =? MAX_SIZE)
          then eraseSecond l'
          else Some l'
      end
  end.

Definition compressStates : M unit :=
  (m <- getRM ;;
   l <- liftOpt (compressStates_of (myStateList m)) ;;
   putRM (withStateList l m) ;;;
   debugList)%rm.

(** ** addState *)

(** What the two serialization calls answer: their success and the bytes
    they leave in the serializer. *)
Record Capture : Type := mkCapture {
  saveState_ok : bool;
  saveDisplay_ok : bool;
  serialized : list byte
}.

(** [while (myCurrentIt != myStateList.end()) myStateList.pop_back();] on
    the reversed list.  An iterator at an element never becomes [end()]:
    the loop goes on until it has destroyed the element the iterator is at,
    or until the list is empty. *)
Fixpoint popFuture (it : Iter) (rl : list RewindState) {struct rl}
  : option (list RewindState) :=
  match it with
  | ItEnd => Some rl
  | ItAt i =>
      match rl with
      | [] => None
      | _ :: rest => if (i <? length rest)%nat then popFuture it rest else None
      end
  end.

Definition discardFuture : M unit :=
  (m <- getRM ;;
   rl <- liftOpt (popFuture (myCurrentIt m) (rev (myStateList m))) ;;
   putRM (withStateList (rev rl) m))%rm.

Definition addState (message : string) (cap : Capture) : M bool :=
  (if saveState_ok cap && saveDisplay_ok cap then
     discardFuture ;;;
     m <- getRM ;;
     (if size m =? MAX_SIZE then compressStates else ret tt) ;;;
     m <- getRM ;;
     putRM (withStateCount (wrap32 (myStateCount m + 1)) m) ;;;
     c <- getConsole ;;
     let state :=
       mkRewindState (serialized cap) (tia_cycles c) (tia_frameCount c) in
     m <- getRM ;;
     putRM (withCurrentIt ItEnd (withStateList (myStateList m ++ [state]) m)) ;;;
     debugList ;;;
     m <- getRM ;;
     putRM (withLastFrames (tia_frameCount c) m) ;;;
     m <- getRM ;;
     (if myStateCount m mod 250 =? 0 then debugList else ret tt) ;;;
     ret true
   else
     ret false)%rm.

(** ** rewindState and unwindState *)

(** Modelled from the spec: [StateManager::loadState] and
    [TIA::loadDisplay] are not among these files.  A snapshot holds the
    machine and the two counters of the moment it was captured, and
    restoring it loads that machine again: the TIA's counters are those of
    the snapshot afterwards. *)
Definition loadState (s : RewindState) : M unit :=
  (emit (LoadState s) ;;;
   c <- getConsole ;;
   putConsole (mkConsole (cycles s) (frames s) (tia_scanlinesLastFrame c)))%rm.

Definition loadDisplay (s : RewindState) : M unit := emit (LoadDisplay s).

(** The [while] loop of [rewindState] over the reversed list, whose head is
    [*rbegin()]; [minCycles] stands for [FRAME_CYCLES * 3 / 4].  Nothing
    stops [rit++] at [rend()]. *)
Fixpoint walkBack (minCycles : Z) (emulation : bool) (now : Z)
         (rl : list RewindState) : option RewindState :=
  match rl with
  | [] => None
  | s :: older =>
      if emulation && (wrap64 (now - cycles s) <? minCycles)
      then walkBack minCycles emulation now older
      else Some s
  end.

Definition rewindState (emulation : bool) : M bool :=
  (m <- getRM ;;
   if size m >? 0 then
     c <- getConsole ;;
     s <- liftOpt (walkBack (FRAME_CYCLES * 3 / 4) emulation (tia_cycles c)
                            (rev (myStateList m))) ;;
     loadState s ;;;
     loadDisplay s ;;;
     msg <- getMessage (cycles s) ;;
     emit (ShowMessage msg) ;;;
     ret true
   else
     ret false)%rm.

Definition rewindDebuggerState : M bool := rewindState false.
Definition rewindEmulationState : M bool := rewindState true.

Definition unwindState (emulation : bool) : M bool :=
  (m <- getRM ;;
   if size m >? 0 then ret true else ret false)%rm.

Definition unwindDebuggerState : M bool := unwindState false.
Definition unwindEmulationState : M bool := unwindState true.

(** ** Histories of calls *)

(** Between two calls the emulator runs: the TIA's counters advance (they
    are [uInt64]) and a frame ends with some number of scanlines. *)
Definition emulate (dcycles dframes scanlines : Z) : M unit :=
  (c <- getConsole ;;
   putConsole (mkConsole (wrap64 (tia_cycles c + dcycles))
                         (wrap64 (tia_frameCount c + dframes))
                         scanlines))%rm.

Inductive Call : Type :=
| DoAddState (message : string) (cap : Capture)
| DoRewindState (emulation : bool)
| DoUnwindState (emulation : bool)
| DoClear
| DoEmulate (dcycles dframes scanlines : Z).

Definition call (c : Call) : M unit :=
  match c with
  | DoAddState message cap => (addState message cap ;;; ret tt)%rm
  | DoRewindState emulation => (rewindState emulation ;;; ret tt)%rm
  | DoUnwindState emulation => (unwindState emulation ;;; ret tt)%rm
  | DoClear => clear
  | DoEmulate dc df sl => emulate dc df sl
  end.

Fixpoint calls (cs : list Call) : M unit :=
  match cs with
  | [] => ret tt
  | c :: rest => (call c ;;; calls rest)%rm
  end.

(** A machine whose manager was just constructed. *)
Definition boot (garbage : list Z) (c : Console) : Machine :=
  mkMachine (RewindManager_new garbage) c [].

(** The machines a constructed manager can be in after calls that
    returned. *)
Inductive Reachable : Machine -> Prop :=
| Reach_boot : forall garbage c, Reachable (boot garbage c)
| Reach_call : forall w c w',
    Reachable w -> call c w = Some (tt, w') -> Reachable w'.
(** What a rewind that found its snapshot [s] leaves behind. *)
Definition rewound (w : Machine) (s : RewindState) : Machine :=
  mkMachine (rm w)
            (mkConsole (cycles s) (frames s)
                       (tia_scanlinesLastFrame (console w)))
            (events w ++ [LoadState s; LoadDisplay s;
                          ShowMessage "Rewind 0 cycle(s)"]).

(** The [n] newest entries of a list kept oldest first. *)
Definition lastn {A : Type} (n : nat) (l : list A) : list A :=
  skipn (length l - n) l.

(** The steps between neighbours of a list, oldest first. *)
Fixpoint cycleSteps (l : list RewindState) : list Z :=
  match l with
  | [] => []
  | a :: rest =>
      match rest with
      | [] => []
      | b :: _ => cycleStep a b :: cycleSteps rest
      end
  end.

(** Every step between neighbours is [d]. *)
Definition evenlySpaced (d : Z) (l : list RewindState) : bool :=
  forallb (Z.eqb d) (cycleSteps l).

(** The [cycles] counters grow strictly from the oldest entry on. *)
Fixpoint cyclesIncrease (l : list RewindState) : bool :=
  match l with
  | [] => true
  | a :: rest =>
      match rest with
      | [] => true
      | b :: _ => (cycles a <? cycles b) && cyclesIncrease rest
      end
  end.

(** The entry a coarse rewind restores according to the specification:
    walking back from the newest entry, the first one whose distance to the
    present exceeds [minCycles], and the oldest entry when none does. *)
Fixpoint coarseTarget_spec (minCycles now : Z) (rl : list RewindState)
  : option RewindState :=
  match rl with
  | [] => None
  | s :: older =>
      if wrap64 (now - cycles s) >? minCycles then Some s
      else match older with
           | [] => Some s
           | _ :: _ => coarseTarget_spec minCycles now older
           end
  end.

(** ** Example histories *)

(** Both serialization calls succeed and leave no bytes. *)
Definition captured : Capture := mkCapture true true [].

Definition boot0 : Machine :=
  boot (repeat 0 (Z.to_nat MAX_SIZE)) (mkConsole 0 0 262).

(** [n] captures, each [spacing] cycles and one frame after the one
    before. *)
Fixpoint captures (spacing : Z) (n : nat) : list Call :=
  match n with
  | O => []
  | S k =>
      DoEmulate spacing 1 262 :: DoAddState "" captured :: captures spacing k
  end.

(** The snapshot [captures] takes at cycle [c] of frame [f]. *)
Definition snapshot (c f : Z) : RewindState := mkRewindState [] c f.

(** The machine the calls [cs] leave when they start on [boot0] (and
    [boot0] itself if one of them has no result). *)
Definition after (cs : list Call) : Machine :=
  match calls cs boot0 with
  | Some (_, w) => w
  | None => boot0
  end.

(** Two captures a second apart, a coarse rewind a little later, and a
    capture 50 cycles after the rewind. *)
Definition rewindThenCapture : list Call :=
  [DoEmulate 100 1 262; DoAddState "" captured;
   DoEmulate 1000000 50 262; DoAddState "" captured;
   DoEmulate 100 0 262; DoRewindState true;
   DoEmulate 50 0 262; DoAddState "" captured].

(** Three captures, a fine rewind, and a capture right after it, as when
    the debugger steps on from the restored state. *)
Definition rewindThenStep : list Call :=
  captures 100 3 ++ [DoRewindState false; DoAddState "" captured].

(** Entries at the cycles 10, 20 and 30 and the present at 896060: the
    entry at 20 is exactly [FRAME_CYCLES * 3 / 4] cycles back. *)
Definition coarseBoundary : list Call :=
  captures 10 3 ++ [DoEmulate 896030 45 262].

(** [MAX_SIZE] captures 60 cycles apart, and the emulator 60 cycles
    further. *)
Definition fullEvenly : list Call :=
  captures 60 (Z.to_nat MAX_SIZE) ++ [DoEmulate 60 1 262].

(** ** deleteState *)

(** [RewindManager::deleteState] has an empty body. *)
Definition deleteState : M unit := ret tt.

(** The distance of an entry to the present as [rewindState] computes it:
    an [uInt64] subtraction. *)
Definition cyclesBack (now : Z) (s : RewindState) : Z :=
  wrap64 (now - cycles s).

(** [l'] is [l] with some entries left out, the others in their order. *)
Inductive Subseq {A : Type} : list A -> list A -> Prop :=
| Subseq_nil : Subseq [] []
| Subseq_keep : forall x l' l, Subseq l' l -> Subseq (x :: l') (x :: l)
| Subseq_drop : forall x l' l, Subseq l' l -> Subseq l' (x :: l).

(** [a] was captured at an earlier cycle than [b]. *)
Definition earlier (a b : RewindState) : Prop := cycles a < cycles b.

(** The calls of a history in which the emulator runs and every capture
    succeeds. *)
Definition capturing (c : Call) : bool :=
  match c with
  | DoAddState _ cap => saveState_ok cap && saveDisplay_ok cap
  | DoEmulate _ _ _ => true
  | _ => false
  end.

Fixpoint countCaptures (cs : list Call) : nat :=
  match cs with
  | [] => 0
  | DoAddState _ _ :: rest => S (countCaptures rest)
  | _ :: rest => countCaptures rest
  end.


(** * Properties *)

(** ** Arithmetic of the constants *)

Lemma MAX_SIZE_eq : MAX_SIZE = 112.
Proof. reflexivity. Qed.

Lemma min_rewind_cycles_eq : FRAME_CYCLES * 3 / 4 = 896040.
Proof. reflexivity. Qed.

Lemma wrap64_nonneg (z : Z) : 0 <= wrap64 z.
Proof. unfold wrap64. apply Z.mod_pos_bound. reflexivity. Qed.

Lemma wrap32_nonneg (z : Z) : 0 <= wrap32 z.
Proof. unfold wrap32. apply Z.mod_pos_bound. reflexivity. Qed.

Lemma wrap32_le (z : Z) : 0 <= z -> wrap32 z <= z.
Proof. intros Hz. unfold wrap32. apply Z.mod_le; [assumption | reflexivity]. Qed.

Lemma wrap64_diag (z : Z) : wrap64 (z - z) = 0.
Proof. rewrite Z.sub_diag. reflexivity. Qed.

(** ** Records and the monad *)

Lemma withStateList_same (m : RewindManager) :
  withStateList (myStateList m) m = m.
Proof. destruct m; reflexivity. Qed.

Lemma machine_eta (w : Machine) :
  mkMachine (rm w) (console w) (events w) = w.
Proof. destruct w; reflexivity. Qed.

Lemma bind_Some {A B : Type} (c : M A) (k : A -> M B) w a w' :
  c w = Some (a, w') -> bind c k w = k a w'.
Proof. intros H. unfold bind. rewrite H. reflexivity. Qed.

Lemma bind_inv {A B : Type} (c : M A) (k : A -> M B) w b w2 :
  bind c k w = Some (b, w2) ->
  exists a w1, c w = Some (a, w1) /\ k a w1 = Some (b, w2).
Proof.
  unfold bind. destruct (c w) as [[a w1]|] eqn:E; [|discriminate].
  intros H. exists a, w1. split; [reflexivity | assumption].
Qed.

Lemma size_pos_iff (m : RewindManager) :
  (size m >? 0) = true <-> myStateList m <> [].
Proof.
  unfold size. destruct (myStateList m); simpl; split; intros H;
    try congruence; try discriminate; try reflexivity.
Qed.

(** ** getMessage *)

Lemma getMessage_of_Rewind (now scanlines cylcesTo : Z) :
  exists rest : string,
    getMessage_of now scanlines cylcesTo = ("Rewind " ++ rest)%string.
Proof.
  unfold getMessage_of.
  assert (H : (wrap64 (now - cylcesTo) <? 0) = false)
    by (apply Z.ltb_ge, wrap64_nonneg).
  rewrite H. eexists. reflexivity.
Qed.

Lemma getMessage_of_same (c scanlines : Z) :
  getMessage_of c scanlines c = "Rewind 0 cycle(s)"%string.
Proof. unfold getMessage_of. rewrite wrap64_diag. reflexivity. Qed.

(** C7: the unit of the message.  50 cycles are reported in cycles and 152
    cycles as 2 scanlines, but five frames of 262 scanlines are reported as
    [0 frame(s)]: the frame branch divides by 60 once more than the size
    of a frame. *)
Theorem C7_getMessage_units :
  getMessage_of 50 262 0 = "Rewind 50 cycle(s)"%string /\
  getMessage_of 152 262 0 = "Rewind 2 scanline(s)"%string /\
  getMessage_of (76 * 262 * 5) 262 0 = "Rewind 0 frame(s)"%string /\
  getMessage_of (76 * 262 * 5) 262 0 <> "Rewind 5 frame(s)"%string.
Proof. repeat split; try reflexivity. vm_compute. discriminate. Qed.

(** C8: the direction word.  Whatever the two cycle counts are, the message
    begins with [Rewind] and never with [Unwind]; for a snapshot 100 cycles
    after the present it is [Rewind 4288951031 minute(s)]. *)
Theorem C8_getMessage_direction :
  (forall now scanlines cylcesTo,
      prefix "Rewind " (getMessage_of now scanlines cylcesTo) = true /\
      prefix "Unwind " (getMessage_of now scanlines cylcesTo) = false) /\
  getMessage_of 100 262 200 = "Rewind 4288951031 minute(s)"%string.
Proof.
  split; [|reflexivity].
  intros now scanlines cylcesTo.
  destruct (getMessage_of_Rewind now scanlines cylcesTo) as [rest ->].
  split; [|reflexivity].
  change (prefix "" rest = true). destruct rest; reflexivity.
Qed.

(** ** addState that cannot capture *)

Lemma addState_failed (message : string) (cap : Capture) (w : Machine) :
  saveState_ok cap && saveDisplay_ok cap = false ->
  addState message cap w = Some (false, w).
Proof. intros E. unfold addState. rewrite E. reflexivity. Qed.

(** C9: when one of the two serialization calls fails, [addState] answers
    [false] and the machine, with the list of snapshots and the iterator, is
    the one it was called on. *)
Theorem C9_addState_capture_failed (message : string) (cap : Capture)
        (w : Machine) :
  saveState_ok cap = false \/ saveDisplay_ok cap = false ->
  addState message cap w = Some (false, w).
Proof.
  intros H. apply addState_failed. apply andb_false_iff. exact H.
Qed.

Lemma C9_addState_capture_failed_witness :
  addState "step" (mkCapture true false [x2a%byte])
           (boot [] (mkConsole 100 1 262))
  = Some (false, boot [] (mkConsole 100 1 262)).
Proof.
  apply (C9_addState_capture_failed "step" (mkCapture true false [x2a%byte])
           (boot [] (mkConsole 100 1 262))).
  right. reflexivity.
Defined.

(** ** rewindState *)

Lemma rewindState_empty (emulation : bool) (w : Machine) :
  myStateList (rm w) = [] -> rewindState emulation w = Some (false, w).
Proof.
  intros H. unfold rewindState, bind, getRM, size. rewrite H. reflexivity.
Qed.

Lemma rewindState_found (emulation : bool) (w : Machine) (s : RewindState) :
  myStateList (rm w) <> [] ->
  walkBack (FRAME_CYCLES * 3 / 4) emulation (tia_cycles (console w))
           (rev (myStateList (rm w))) = Some s ->
  rewindState emulation w = Some (true, rewound w s).
Proof.
  intros Hne Hwalk. apply size_pos_iff in Hne.
  unfold rewindState, bind, getRM, getConsole. rewrite Hne, Hwalk.
  unfold liftOpt, loadState, loadDisplay, getMessage, bind, emit, getConsole,
    putConsole, ret; simpl.
  rewrite getMessage_of_same. unfold rewound.
  rewrite <- !app_assoc. reflexivity.
Qed.

Lemma rewindState_rm (emulation : bool) (w w' : Machine) (b : bool) :
  rewindState emulation w = Some (b, w') -> rm w' = rm w.
Proof.
  unfold rewindState, bind, getRM, getConsole.
  destruct (size (rm w) >? 0).
  - unfold liftOpt.
    destruct (walkBack _ _ _ _) as [s|]; [|discriminate].
    unfold loadState, loadDisplay, getMessage, bind, emit, getConsole,
      putConsole, ret; simpl.
    intros H; inversion H; reflexivity.
  - unfold ret. intros H; inversion H; reflexivity.
Qed.

Lemma walkBack_fine (minCycles now : Z) (s : RewindState)
      (older : list RewindState) :
  walkBack minCycles false now (s :: older) = Some s.
Proof. reflexivity. Qed.

(** The walk stops at the first entry, newest first, whose distance to the
    present is not below [minCycles]. *)
Lemma walkBack_first (minCycles now : Z) (newer : list RewindState)
      (s : RewindState) (older : list RewindState) :
  Forall (fun x => wrap64 (now - cycles x) < minCycles) newer ->
  minCycles <= wrap64 (now - cycles s) ->
  walkBack minCycles true now (newer ++ s :: older) = Some s.
Proof.
  intros Hnewer Hs. induction Hnewer as [|x newer Hx _ IH]; simpl.
  - apply Z.ltb_ge in Hs. rewrite Hs. reflexivity.
  - apply Z.ltb_lt in Hx. rewrite Hx. exact IH.
Qed.

(** With no entry that far from the present the walk leaves the list. *)
Lemma walkBack_none (minCycles now : Z) (rl : list RewindState) :
  Forall (fun x => wrap64 (now - cycles x) < minCycles) rl ->
  walkBack minCycles true now rl = None.
Proof.
  intros H. induction H as [|x rl Hx _ IH]; simpl; [reflexivity|].
  apply Z.ltb_lt in Hx. rewrite Hx. exact IH.
Qed.

(** ** compressStates *)

Lemma lastn_app {A : Type} (n : nat) (pre back : list A) :
  length back = n -> lastn n (pre ++ back) = back.
Proof.
  intros H. unfold lastn. rewrite length_app, H.
  replace (length pre + n - n)%nat with (length pre + 0)%nat by lia.
  rewrite skipn_app, Nat.add_0_r, skipn_all.
  replace (length pre - length pre)%nat with 0%nat by lia.
  reflexivity.
Qed.

Lemma split_lastn {A : Type} (n : nat) (l : list A) :
  (n <= length l)%nat ->
  l = firstn (length l - n) l ++ lastn n l /\ length (lastn n l) = n.
Proof.
  intros H. unfold lastn. rewrite firstn_skipn. split; [reflexivity|].
  rewrite length_skipn. lia.
Qed.

Lemma skipn_exact {A : Type} (n : nat) (a b : list A) :
  length a = n -> skipn n (a ++ b) = b.
Proof.
  intros <-. rewrite skipn_app, skipn_all, Nat.sub_diag. reflexivity.
Qed.

Lemma firstn_exact {A : Type} (n : nat) (a b : list A) :
  length a = n -> firstn n (a ++ b) = a.
Proof.
  intros <-. rewrite firstn_app, firstn_all, Nat.sub_diag. simpl.
  apply app_nil_r.
Qed.

Section Scan.

  (** The entries [std::advance] stepped over. *)
Variable back : list RewindState.
Hypothesis back_nonempty : back <> [].

  (** [pre] holds the entries the scan has left behind it; the counter of
      equal steps never exceeds their number. *)
Lemma scanBody_keeps (pre : list RewindState) (cur : RewindState)
        (lastStep stepCount : Z) :
    0 <= stepCount <= Z.of_nat (length pre) ->
    exists pre' lastStep' stepCount',
      scanBody (pre ++ back) cur lastStep stepCount
      = Some (pre' ++ back, lastStep', stepCount') /\
      0 <= stepCount' <= Z.of_nat (length (cur :: pre')) /\
      (length pre' <= length pre)%nat.
  Proof.
    intros Hsc. unfold scanBody.
    destruct (pre ++ back) as [|prev after] eqn:Enewer.
    { apply app_eq_nil in Enewer. tauto. }
    destruct (_ =? lastStep).
    - exists pre, lastStep, (wrap32 (stepCount + 1)). rewrite Enewer.
      split; [reflexivity|]. split; [|lia].
      pose proof (wrap32_nonneg (stepCount + 1)).
      pose proof (wrap32_le (stepCount + 1)). simpl length. lia.
    - destruct (stepCount >=? MERGE_COUNT) eqn:Emerge.
      + apply Z.geb_le in Emerge. unfold MERGE_COUNT in Emerge.
        destruct pre as [|p1 [|p2 pre2]]; simpl in Hsc; try lia.
        simpl in Enewer. injection Enewer as <- <-.
        eexists (p1 :: pre2), _, 2. split; [reflexivity|].
        simpl length. lia.
      + exists pre. rewrite Enewer. eexists _, 1.
        split; [reflexivity|]. simpl length. lia.
  Qed.

Lemma scanStates_keeps (older : list RewindState) :
    forall (pre : list RewindState) (cur : RewindState) (lastStep stepCount : Z),
      0 <= stepCount <= Z.of_nat (length pre) ->
      exists pre' stepCount',
        scanStates (pre ++ back) cur older lastStep stepCount
        = Some (pre' ++ back, stepCount') /\
        0 <= stepCount' <= Z.of_nat (length pre') /\
        (1 <= length pre' <= length pre + 1 + length older)%nat.
  Proof.
    induction older as [|next older IH]; intros pre cur lastStep stepCount Hsc;
      destruct (scanBody_keeps pre cur lastStep stepCount Hsc)
        as (pre1 & lastStep1 & stepCount1 & Hbody & Hsc1 & Hlen1);
      simpl scanStates; rewrite Hbody.
    - exists (cur :: pre1), stepCount1. split; [reflexivity|].
      simpl length in *. lia.
    - destruct (IH (cur :: pre1) next lastStep1 stepCount1 Hsc1)
        as (pre2 & stepCount2 & Hscan & Hsc2 & Hlen2).
      exists pre2, stepCount2. split; [exact Hscan|].
      simpl length in *. lia.
  Qed.

End Scan.

(** A list split at its [SINGLE_STEPS] newest entries: compaction answers,
    keeps these entries and at least one older entry, and removes at least
    one entry when the list holds [MAX_SIZE]. *)
Lemma compressStates_of_keeps (front back : list RewindState) :
  front <> [] ->
  length back = Z.to_nat SINGLE_STEPS ->
  exists pre,
    compressStates_of (front ++ back) = Some (pre ++ back) /\
    (1 <= length pre <= length front)%nat /\
    (Z.of_nat (length (front ++ back)) = MAX_SIZE ->
     (length pre < length front)%nat).
Proof.
  intros Hfront Hback. unfold compressStates_of.
  assert (Hnn : back <> []).
  { intros ->. simpl in Hback. discriminate. }
  cbv zeta. rewrite rev_app_distr.
  assert (Hrb : length (rev back) = Z.to_nat SINGLE_STEPS)
    by (rewrite length_rev; exact Hback).
  rewrite (skipn_exact _ _ _ Hrb), (firstn_exact _ _ _ Hrb), rev_involutive.
  destruct (rev front) as [|cur older] eqn:Efront.
  { apply (f_equal (@rev _)) in Efront. rewrite rev_involutive in Efront.
    contradiction. }
  assert (Hlen : length front = S (length older)).
  { rewrite <- (length_rev front), Efront. reflexivity. }
  destruct (scanStates_keeps back Hnn older [] cur 0 0)
    as (pre & stepCount & Hscan & Hsc & Hpre); [simpl; lia|].
  simpl app in Hscan. rewrite Hscan. simpl length in Hpre.
  destruct ((stepCount >=? MERGE_COUNT)
            || (Z.of_nat (length (pre ++ back)) =? MAX_SIZE)) eqn:Ecut.
  - assert (H2 : (2 <= length pre)%nat).
    { apply orb_true_iff in Ecut. destruct Ecut as [E|E].
      - apply Z.geb_le in E. unfold MERGE_COUNT in E. lia.
      - apply Z.eqb_eq in E. rewrite length_app, Hback in E.
        rewrite MAX_SIZE_eq in E. unfold SINGLE_STEPS in E. lia. }
    destruct pre as [|p1 [|p2 pre2]]; simpl in H2; try lia.
    exists (p1 :: pre2). split; [reflexivity|].
    simpl length in *. lia.
  - exists pre. split; [reflexivity|]. split; [lia|].
    apply orb_false_iff in Ecut. destruct Ecut as [_ E].
    apply Z.eqb_neq in E. rewrite !length_app in *. lia.
Qed.

(** Compaction of a list of [MAX_SIZE] entries. *)
Lemma compressStates_of_full (l : list RewindState) :
  Z.of_nat (length l) = MAX_SIZE ->
  exists l',
    compressStates_of l = Some l' /\
    Z.of_nat (length l') < MAX_SIZE /\
    l' <> [] /\
    lastn (Z.to_nat SINGLE_STEPS) l' = lastn (Z.to_nat SINGLE_STEPS) l.
Proof.
  intros Hl. rewrite MAX_SIZE_eq in Hl.
  destruct (split_lastn (Z.to_nat SINGLE_STEPS) l) as [Hsplit Hback].
  { unfold SINGLE_STEPS. lia. }
  set (back := lastn (Z.to_nat SINGLE_STEPS) l) in *.
  set (front := firstn (length l - Z.to_nat SINGLE_STEPS) l) in *.
  assert (Hfront : front <> []).
  { intros E. rewrite E in Hsplit. simpl in Hsplit.
    rewrite Hsplit, Hback in Hl. unfold SINGLE_STEPS in Hl. lia. }
  destruct (compressStates_of_keeps front back Hfront Hback)
    as (pre & Hc & Hpre & Hless).
  exists (pre ++ back). rewrite Hsplit at 1. split; [exact Hc|].
  assert (Hll : length l = (length front + length back)%nat).
  { rewrite Hsplit at 1. apply length_app. }
  split; [|split].
  - rewrite MAX_SIZE_eq, length_app.
    assert ((length pre < length front)%nat).
    { apply Hless. rewrite length_app, MAX_SIZE_eq. lia. }
    lia.
  - intros E. apply app_eq_nil in E. destruct E as [E _]. rewrite E in Hpre.
    simpl in Hpre. lia.
  - apply lastn_app. exact Hback.
Qed.

(** ** addState that captures *)

Lemma popFuture_end (rl : list RewindState) : popFuture ItEnd rl = Some rl.
Proof. destruct rl; reflexivity. Qed.

Lemma discardFuture_end (w : Machine) :
  myCurrentIt (rm w) = ItEnd -> discardFuture w = Some (tt, w).
Proof.
  intros H. unfold discardFuture, bind, getRM, liftOpt, putRM.
  rewrite H, popFuture_end, rev_involutive, withStateList_same, machine_eta.
  reflexivity.
Qed.

Lemma debugList_answers (w : Machine) :
  myStateList (rm w) <> [] ->
  size (rm w) <= MAX_SIZE ->
  exists a,
    debugList w
    = Some (tt, mkMachine (withFrameLst a (rm w)) (console w) (events w)).
Proof.
  intros Hne Hsize. unfold debugList, bind, getRM, liftOpt, debugList_of, putRM.
  unfold size in Hsize. destruct (myStateList (rm w)) as [|first rest] eqn:E.
  { contradiction. }
  apply Z.leb_le in Hsize. rewrite Hsize. eexists. reflexivity.
Qed.

(** The test of the size and the compaction it may start. *)
Lemma compress_if_full (w : Machine) :
  size (rm w) <= MAX_SIZE ->
  exists kept a,
    bind getRM
         (fun m => if size m =? MAX_SIZE then compressStates else ret tt) w
    = Some (tt, mkMachine (withFrameLst a (withStateList kept (rm w)))
                          (console w) (events w)) /\
    Z.of_nat (length kept) < MAX_SIZE /\
    ((size (rm w) < MAX_SIZE /\ kept = myStateList (rm w)) \/
     (size (rm w) = MAX_SIZE /\
      compressStates_of (myStateList (rm w)) = Some kept)).
Proof.
  intros Hsize. unfold bind at 1, getRM at 1.
  destruct (size (rm w) =? MAX_SIZE) eqn:Efull.
  - apply Z.eqb_eq in Efull.
    destruct (compressStates_of_full (myStateList (rm w)) Efull)
      as (kept & Hc & Hlen & Hne & _).
    unfold compressStates, bind at 1 2 3, getRM, liftOpt, putRM.
    rewrite Hc. cbn [rm console events].
    match goal with
    | |- context [debugList ?x] =>
        destruct (debugList_answers x) as [a Ha]
    end.
    + exact Hne.
    + unfold size. cbn [rm withStateList myStateList]. lia.
    + exists kept, a. rewrite Ha. cbn [rm console events].
      split; [reflexivity|]. split; [exact Hlen|]. right. split; [exact Efull | reflexivity].
  - apply Z.eqb_neq in Efull.
    exists (myStateList (rm w)), (myFrameLst (rm w)). unfold ret.
    split; [|split].
    + destruct w as [[l it a n f] c e]. reflexivity.
    + unfold size in *. lia.
    + left. split; [lia | reflexivity].
Qed.

Lemma addState_captured (message : string) (cap : Capture) (w : Machine) :
  saveState_ok cap = true ->
  saveDisplay_ok cap = true ->
  myCurrentIt (rm w) = ItEnd ->
  size (rm w) <= MAX_SIZE ->
  exists kept w',
    addState message cap w = Some (true, w') /\
    Z.of_nat (length kept) < MAX_SIZE /\
    ((size (rm w) < MAX_SIZE /\ kept = myStateList (rm w)) \/
     (size (rm w) = MAX_SIZE /\
      compressStates_of (myStateList (rm w)) = Some kept)) /\
    myStateList (rm w')
    = kept ++ [mkRewindState (serialized cap) (tia_cycles (console w))
                             (tia_frameCount (console w))] /\
    myCurrentIt (rm w') = ItEnd /\
    console w' = console w /\
    events w' = events w.
Proof.
  intros Hs Hd Hit Hsize. unfold addState. rewrite Hs, Hd. cbn [andb].
  rewrite (bind_Some _ _ _ _ _ (discardFuture_end w Hit)).
  destruct (compress_if_full w Hsize) as (kept & a & Hstep & Hlen & Hkept).
  exists kept.
  unfold bind at 1 2. unfold bind at 1 in Hstep.
  unfold getRM at 1 in Hstep. unfold getRM at 1. cbv beta iota in Hstep |- *.
  rewrite Hstep.
  unfold bind, getRM, getConsole, putRM, ret. cbn [rm console events].
  assert (Hpushed : forall pre s, pre ++ [s] <> @nil RewindState).
  { intros pre s E. apply app_eq_nil in E. destruct E as [_ E]. discriminate. }
  match goal with
  | |- context [debugList ?x] => destruct (debugList_answers x) as [a1 Ha1]
  end.
  { apply Hpushed. }
  { unfold size.
    cbn [rm myStateList withCurrentIt withStateList withFrameLst
         withStateCount withLastFrames].
    rewrite length_app. simpl length. lia. }
  rewrite Ha1. cbn [rm console events].
  match goal with
  | |- context [if ?c then debugList else _] => destruct c
  end.
  - match goal with
    | |- context [debugList ?x] => destruct (debugList_answers x) as [a2 Ha2]
    end.
    { apply Hpushed. }
    { unfold size.
    cbn [rm myStateList withCurrentIt withStateList withFrameLst
         withStateCount withLastFrames].
    rewrite length_app. simpl length. lia. }
    rewrite Ha2. eexists. split; [reflexivity|].
    split; [exact Hlen|]. split; [exact Hkept|]. repeat split.
  - eexists. split; [reflexivity|].
    split; [exact Hlen|]. split; [exact Hkept|]. repeat split.
Qed.

(** ** What holds of every reachable machine *)

Lemma unwindState_same (emulation : bool) (w : Machine) :
  unwindState emulation w = Some (negb (size (rm w) =? 0), w) /\
  unwindState emulation w = Some ((size (rm w) >? 0), w).
Proof.
  unfold unwindState, bind, getRM, ret, size.
  destruct (myStateList (rm w)); split; reflexivity.
Qed.

(** [addState] answers on a machine whose iterator is [end()] and whose
    list is within [MAX_SIZE], and both still hold afterwards. *)
Lemma addState_inv (message : string) (cap : Capture) (w : Machine) :
  myCurrentIt (rm w) = ItEnd ->
  size (rm w) <= MAX_SIZE ->
  exists b w',
    addState message cap w = Some (b, w') /\
    myCurrentIt (rm w') = ItEnd /\
    size (rm w') <= MAX_SIZE.
Proof.
  intros Hit Hsize.
  destruct (saveState_ok cap && saveDisplay_ok cap) eqn:E.
  - apply andb_true_iff in E. destruct E as [Hs Hd].
    destruct (addState_captured message cap w Hs Hd Hit Hsize)
      as (kept & w' & Hadd & Hlen & _ & Hlist & Hit' & _).
    exists true, w'. split; [exact Hadd|]. split; [exact Hit'|].
    unfold size. rewrite Hlist, length_app. simpl length. lia.
  - exists false, w. split; [apply addState_failed; exact E|]. tauto.
Qed.

Lemma call_inv (c : Call) (w w' : Machine) :
  call c w = Some (tt, w') ->
  myCurrentIt (rm w) = ItEnd /\ size (rm w) <= MAX_SIZE ->
  myCurrentIt (rm w') = ItEnd /\ size (rm w') <= MAX_SIZE.
Proof.
  intros Hcall [Hit Hsize]. destruct c as [message cap|e|e| |dc df sl];
    simpl in Hcall.
  - apply bind_inv in Hcall. destruct Hcall as (b & w1 & Hadd & Hret).
    injection Hret as <-.
    destruct (addState_inv message cap w Hit Hsize)
      as (b' & w2 & Hadd' & Hit' & Hsize').
    rewrite Hadd in Hadd'. injection Hadd' as _ <-. tauto.
  - apply bind_inv in Hcall. destruct Hcall as (b & w1 & Hrew & Hret).
    injection Hret as <-. rewrite (rewindState_rm e w w1 b Hrew). tauto.
  - apply bind_inv in Hcall. destruct Hcall as (b & w1 & Hun & Hret).
    injection Hret as <-.
    destruct (unwindState_same e w) as [_ Hsame]. rewrite Hsame in Hun.
    injection Hun as _ <-. tauto.
  - unfold clear, bind, getRM, putRM in Hcall. injection Hcall as <-.
    unfold size. simpl. split; [exact Hit|]. rewrite MAX_SIZE_eq. lia.
  - unfold emulate, bind, getConsole, putConsole in Hcall.
    injection Hcall as <-. simpl. tauto.
Qed.

Lemma Reachable_inv (w : Machine) :
  Reachable w -> myCurrentIt (rm w) = ItEnd /\ size (rm w) <= MAX_SIZE.
Proof.
  induction 1 as [garbage c | w c w' _ IH Hcall].
  - split; [reflexivity|]. unfold size. simpl. rewrite MAX_SIZE_eq. lia.
  - exact (call_inv c w w' Hcall IH).
Qed.

(** C4: the list of a reachable machine holds at most [MAX_SIZE] entries,
    whatever calls of [addState], [rewindState], [unwindState] and [clear]
    led to it; and a further [addState] answers and leaves a list within
    [MAX_SIZE] again. *)
Theorem C4_size_within_MAX_SIZE (w : Machine) :
  Reachable w ->
  size (rm w) <= MAX_SIZE /\
  forall message cap,
  exists b w',
    addState message cap w = Some (b, w') /\ size (rm w') <= MAX_SIZE.
Proof.
  intros Hw. destruct (Reachable_inv w Hw) as [Hit Hsize].
  split; [exact Hsize|]. intros message cap.
  destruct (addState_inv message cap w Hit Hsize) as (b & w' & Hadd & _ & H).
  exists b, w'. split; assumption.
Qed.

(** ** Histories *)

Lemma calls_Reachable (cs : list Call) :
  forall w w', Reachable w -> calls cs w = Some (tt, w') -> Reachable w'.
Proof.
  induction cs as [|c cs IH]; intros w w' Hw Hcalls; simpl in Hcalls.
  - injection Hcalls as <-. exact Hw.
  - apply bind_inv in Hcalls. destruct Hcalls as ([] & w1 & Hcall & Hrest).
    apply (IH w1 w'); [|exact Hrest].
    exact (Reach_call w c w1 Hw Hcall).
Qed.

Lemma after_Reachable (cs : list Call) : Reachable (after cs).
Proof.
  unfold after. destruct (calls cs boot0) as [[[] w]|] eqn:E.
  - apply (calls_Reachable cs boot0 w); [apply Reach_boot | exact E].
  - apply Reach_boot.
Qed.

Lemma C4_size_within_MAX_SIZE_witness :
  size (rm (after (captures 60 200))) <= MAX_SIZE /\
  forall message cap,
  exists b w',
    addState message cap (after (captures 60 200)) = Some (b, w') /\
    size (rm w') <= MAX_SIZE.
Proof.
  apply (C4_size_within_MAX_SIZE (after (captures 60 200))).
  apply (calls_Reachable (captures 60 200) boot0).
  - apply Reach_boot.
  - vm_compute. reflexivity.
Defined.

(** ** The iterator *)

(** C10: in every reachable machine [myCurrentIt] is [end()]: [addState]
    leaves it there, and [rewindState] and [unwindState] do not assign it;
    so the loop that discards the entries after the iterator removes none
    when [addState] runs after a rewind. *)
Theorem C10_iterator_stays_at_end (w : Machine) :
  Reachable w ->
  myCurrentIt (rm w) = ItEnd /\
  (forall message cap b w',
      addState message cap w = Some (b, w') -> myCurrentIt (rm w') = ItEnd) /\
  (forall emulation b w',
      rewindState emulation w = Some (b, w') ->
      myCurrentIt (rm w') = myCurrentIt (rm w) /\
      discardFuture w' = Some (tt, w')) /\
  (forall emulation b w',
      unwindState emulation w = Some (b, w') ->
      myCurrentIt (rm w') = myCurrentIt (rm w) /\
      discardFuture w' = Some (tt, w')).
Proof.
  intros Hw. destruct (Reachable_inv w Hw) as [Hit Hsize].
  split; [exact Hit|]. split; [|split].
  - intros message cap b w' Hadd.
    destruct (addState_inv message cap w Hit Hsize)
      as (b' & w2 & Hadd' & Hit' & _).
    rewrite Hadd in Hadd'. injection Hadd' as _ <-. exact Hit'.
  - intros emulation b w' Hrew.
    pose proof (rewindState_rm emulation w w' b Hrew) as Hrm.
    rewrite Hrm. split; [reflexivity|].
    apply discardFuture_end. rewrite Hrm. exact Hit.
  - intros emulation b w' Hun.
    destruct (unwindState_same emulation w) as [_ Hsame].
    rewrite Hsame in Hun. injection Hun as _ <-.
    split; [reflexivity|]. apply discardFuture_end. exact Hit.
Qed.

Lemma C10_iterator_stays_at_end_witness :
  myCurrentIt (rm (after (captures 100 3))) = ItEnd /\
  rewindState false (after (captures 100 3))
  = Some (true, after (captures 100 3 ++ [DoRewindState false])) /\
  myCurrentIt (rm (after (captures 100 3 ++ [DoRewindState false]))) = ItEnd /\
  discardFuture (after (captures 100 3 ++ [DoRewindState false]))
  = Some (tt, after (captures 100 3 ++ [DoRewindState false])).
Proof.
  assert (Hw : Reachable (after (captures 100 3))).
  { apply (calls_Reachable (captures 100 3) boot0).
    - apply Reach_boot.
    - vm_compute. reflexivity. }
  assert (Hrew : rewindState false (after (captures 100 3))
                 = Some (true, after (captures 100 3 ++ [DoRewindState false]))).
  { vm_compute. reflexivity. }
  destruct (C10_iterator_stays_at_end (after (captures 100 3)) Hw)
    as (Hit & _ & Hrewind & _).
  destruct (Hrewind false true _ Hrew) as [Hsame Hloop].
  split; [exact Hit|]. split; [exact Hrew|]. split; [|exact Hloop].
  rewrite Hsame. exact Hit.
Defined.

(** ** Rewinding *)

(** C1: the fine rewind ([rewindDebuggerState]) of a list that is not empty
    answers [true] and restores the newest entry, the one just before
    [end()]; the list keeps its entries. *)
Theorem C1_fine_rewind_restores_newest (w : Machine)
        (older : list RewindState) (s : RewindState) :
  myStateList (rm w) = older ++ [s] ->
  exists w',
    rewindDebuggerState w = Some (true, w') /\
    myStateList (rm w') = myStateList (rm w) /\
    events w' = events w ++ [LoadState s; LoadDisplay s;
                             ShowMessage "Rewind 0 cycle(s)"].
Proof.
  intros Hl. exists (rewound w s). split; [|split; reflexivity].
  apply rewindState_found.
  - rewrite Hl. intros E. apply app_eq_nil in E. destruct E; discriminate.
  - rewrite Hl, rev_app_distr. reflexivity.
Qed.

Lemma C1_fine_rewind_restores_newest_witness :
  myStateList (rm (after (captures 100 3)))
  = [snapshot 100 1; snapshot 200 2] ++ [snapshot 300 3] /\
  exists w',
    rewindDebuggerState (after (captures 100 3)) = Some (true, w') /\
    myStateList (rm w') = myStateList (rm (after (captures 100 3))) /\
    events w' = events (after (captures 100 3))
                ++ [LoadState (snapshot 300 3); LoadDisplay (snapshot 300 3);
                    ShowMessage "Rewind 0 cycle(s)"].
Proof.
  assert (Hl : myStateList (rm (after (captures 100 3)))
               = [snapshot 100 1; snapshot 200 2] ++ [snapshot 300 3]).
  { vm_compute. reflexivity. }
  split; [exact Hl|].
  exact (C1_fine_rewind_restores_newest
           (after (captures 100 3)) [snapshot 100 1; snapshot 200 2]
           (snapshot 300 3) Hl).
Defined.

(** C1, as the specification words it, fails: after captures at the cycles
    100, 200 and 300 the fine rewind restores the entry of cycle 300, and
    the entry of cycle 200 is not restored. *)
Lemma C1_fine_rewind_counterexample :
  calls (captures 100 3) boot0 = Some (tt, after (captures 100 3)) /\
  map cycles (myStateList (rm (after (captures 100 3)))) = [100; 200; 300] /\
  myCurrentIt (rm (after (captures 100 3))) = ItEnd /\
  exists w',
    rewindDebuggerState (after (captures 100 3)) = Some (true, w') /\
    events w' = [LoadState (snapshot 300 3); LoadDisplay (snapshot 300 3);
                 ShowMessage "Rewind 0 cycle(s)"] /\
    forall s, In (LoadState s) (events w') -> cycles s <> 200.
Proof.
  split; [vm_compute; reflexivity|].
  split; [vm_compute; reflexivity|].
  split; [vm_compute; reflexivity|].
  eexists. split; [vm_compute; reflexivity|].
  split; [reflexivity|].
  intros s [H|[H|[H|[]]]]; try discriminate.
  injection H as <-. vm_compute. discriminate.
Qed.

(** C2: the coarse rewind ([rewindEmulationState]) walks back from the
    newest entry and restores the first entry whose distance to the present
    is at least the minimum, [FRAME_CYCLES * 3 / 4] cycles in
    [rewindState]; this is proved when the list has such an entry. *)
Theorem C2_coarse_rewind_first_far_enough (minCycles now : Z)
        (newer : list RewindState) (s : RewindState)
        (older : list RewindState) :
  Forall (fun x => wrap64 (now - cycles x) < minCycles) newer ->
  minCycles <= wrap64 (now - cycles s) ->
  walkBack minCycles true now (newer ++ s :: older) = Some s /\
  forall w : Machine,
    minCycles = FRAME_CYCLES * 3 / 4 ->
    tia_cycles (console w) = now ->
    rev (myStateList (rm w)) = newer ++ s :: older ->
    exists w',
      rewindEmulationState w = Some (true, w') /\
      myStateList (rm w') = myStateList (rm w) /\
      events w' = events w ++ [LoadState s; LoadDisplay s;
                               ShowMessage "Rewind 0 cycle(s)"].
Proof.
  intros Hnewer Hs.
  pose proof (walkBack_first minCycles now newer s older Hnewer Hs) as Hwalk.
  split; [exact Hwalk|].
  intros w -> <- Hl. exists (rewound w s). split; [|split; reflexivity].
  apply rewindState_found.
  - intros E. rewrite E in Hl. simpl in Hl. destruct newer; discriminate.
  - rewrite Hl. exact Hwalk.
Qed.

Lemma C2_coarse_rewind_first_far_enough_witness :
  walkBack 57 true 300 ([snapshot 300 3] ++ snapshot 200 2 :: [snapshot 100 1])
  = Some (snapshot 200 2) /\
  exists w',
    rewindEmulationState (after coarseBoundary) = Some (true, w') /\
    myStateList (rm w') = myStateList (rm (after coarseBoundary)) /\
    events w' = events (after coarseBoundary)
                ++ [LoadState (snapshot 20 2); LoadDisplay (snapshot 20 2);
                    ShowMessage "Rewind 0 cycle(s)"].
Proof.
  split.
  - apply (C2_coarse_rewind_first_far_enough
             57 300 [snapshot 300 3] (snapshot 200 2) [snapshot 100 1]).
    + constructor; [|constructor]. vm_compute. reflexivity.
    + vm_compute. discriminate.
  - apply (C2_coarse_rewind_first_far_enough
             (FRAME_CYCLES * 3 / 4) 896060
             [snapshot 30 3] (snapshot 20 2) [snapshot 10 1]).
    + constructor; [|constructor]. vm_compute. reflexivity.
    + vm_compute. discriminate.
    + reflexivity.
    + vm_compute. reflexivity.
    + vm_compute. reflexivity.
Defined.

(** C2, as the specification words it, fails.  With entries at the cycles
    10, 20 and 30 and the present at 896060 the coarse rewind restores the
    entry of cycle 20, whose distance is the minimum itself and does not
    exceed it: the specification names the entry of cycle 10 when the
    minimum is three quarters of [FRAME_CYCLES], and the entry of cycle 30
    when it is three quarters of the 76 * 262 cycles of one frame. *)
Lemma C2_coarse_rewind_counterexample :
  calls coarseBoundary boot0 = Some (tt, after coarseBoundary) /\
  map cycles (myStateList (rm (after coarseBoundary))) = [10; 20; 30] /\
  tia_cycles (console (after coarseBoundary)) = 896060 /\
  (exists w',
      rewindEmulationState (after coarseBoundary) = Some (true, w') /\
      events w' = [LoadState (snapshot 20 2); LoadDisplay (snapshot 20 2);
                   ShowMessage "Rewind 0 cycle(s)"]) /\
  coarseTarget_spec (FRAME_CYCLES * 3 / 4) 896060
                    (rev (myStateList (rm (after coarseBoundary))))
  = Some (snapshot 10 1) /\
  coarseTarget_spec (76 * 262 * 3 / 4) 896060
                    (rev (myStateList (rm (after coarseBoundary))))
  = Some (snapshot 30 3).
Proof.
  split; [vm_compute; reflexivity|].
  split; [vm_compute; reflexivity|].
  split; [vm_compute; reflexivity|].
  split; [eexists; split; vm_compute; reflexivity|].
  split; vm_compute; reflexivity.
Qed.

(** With no entry as far back as the minimum the walk leaves the list: the
    oldest entry is not restored, the call has no result. *)
Lemma rewindEmulationState_too_close :
  map cycles (myStateList (rm (after (captures 100 3)))) = [100; 200; 300] /\
  tia_cycles (console (after (captures 100 3))) = 300 /\
  rewindEmulationState (after (captures 100 3)) = None.
Proof.
  split; [vm_compute; reflexivity|].
  split; vm_compute; reflexivity.
Qed.

(** ** Monotony of the cycles *)

Lemma cyclesIncrease_snoc (l : list RewindState) (a b : RewindState) :
  cyclesIncrease (l ++ [a; b]) = true -> cycles a < cycles b.
Proof.
  induction l as [|x l IH]; simpl.
  - intros H. apply andb_true_iff in H. destruct H as [H _].
    apply Z.ltb_lt. exact H.
  - destruct (l ++ [a; b]) eqn:E.
    + destruct l; discriminate.
    + intros H. apply andb_true_iff in H. destruct H as [_ H]. exact (IH H).
Qed.

(** C5: the list of a reachable machine need not be increasing.  A coarse
    rewind restores the snapshot of cycle 100 while the list still ends
    with the snapshot of cycle 1000100; the capture 50 cycles later is
    appended behind it.  In the same way a capture right after a fine
    rewind repeats the cycle of the newest entry. *)
Theorem C5_cycles_after_rewind :
  calls rewindThenCapture boot0 = Some (tt, after rewindThenCapture) /\
  Reachable (after rewindThenCapture) /\
  map cycles (myStateList (rm (after rewindThenCapture)))
  = [100; 1000100; 150] /\
  cyclesIncrease (myStateList (rm (after rewindThenCapture))) = false /\
  calls rewindThenStep boot0 = Some (tt, after rewindThenStep) /\
  map cycles (myStateList (rm (after rewindThenStep)))
  = [100; 200; 300; 300] /\
  cyclesIncrease (myStateList (rm (after rewindThenStep))) = false.
Proof.
  split; [vm_compute; reflexivity|].
  split; [apply after_Reachable|].
  split; [vm_compute; reflexivity|].
  split; [vm_compute; reflexivity|].
  split; [vm_compute; reflexivity|].
  split; vm_compute; reflexivity.
Qed.

(** ** Evenly spaced lists *)

Lemma wrap32_idem_add (a b : Z) : wrap32 (wrap32 a + b) = wrap32 (a + b).
Proof. unfold wrap32. apply Zplus_mod_idemp_l. Qed.

Lemma evenlySpaced_pair (d : Z) (pre : list RewindState) (a b : RewindState)
      (post : list RewindState) :
  evenlySpaced d (pre ++ a :: b :: post) = true -> cycleStep a b = d.
Proof.
  unfold evenlySpaced. induction pre as [|x pre IH].
  - simpl. intros H. apply andb_true_iff in H. destruct H as [H _].
    apply Z.eqb_eq in H. symmetry. exact H.
  - change ((x :: pre) ++ a :: b :: post) with (x :: (pre ++ a :: b :: post)).
    destruct (pre ++ a :: b :: post) as [|y rest] eqn:E.
    + destruct pre; discriminate.
    + intros H. apply IH.
      change (forallb (Z.eqb d) (cycleStep x y :: cycleSteps (y :: rest)) = true)
        in H.
      simpl forallb in H. apply andb_true_iff in H. tauto.
Qed.

(** The scan of an evenly spaced list: while the step stays the same the
    counter is incremented and no entry leaves the list. *)
Lemma scanStates_evenlySpaced (d : Z) (older : list RewindState) :
  forall (prev : RewindState) (after : list RewindState) (cur : RewindState)
         (lastStep stepCount : Z),
    evenlySpaced d (rev older ++ cur :: prev :: after) = true ->
    lastStep = d \/ stepCount < MERGE_COUNT ->
    scanStates (prev :: after) cur older lastStep stepCount
    = Some (rev older ++ cur :: prev :: after,
            wrap32 ((if lastStep =? d then stepCount else 0) + 1
                    + Z.of_nat (length older))).
Proof.
  induction older as [|next older IH];
    intros prev after cur lastStep stepCount Heven Hstart.
  - pose proof (evenlySpaced_pair d [] cur prev after Heven) as Hstep.
    simpl scanStates. unfold scanBody. rewrite Hstep.
    rewrite (Z.eqb_sym d lastStep).
    destruct (lastStep =? d) eqn:E.
    + simpl. rewrite Z.add_0_r. reflexivity.
    + apply Z.eqb_neq in E. destruct Hstart as [Hstart|Hstart]; [congruence|].
      apply Z.ltb_lt in Hstart. rewrite Z.geb_leb.
      assert (Hle : (MERGE_COUNT <=? stepCount) = false)
        by (apply Z.leb_gt, Z.ltb_lt; exact Hstart).
      rewrite Hle. reflexivity.
  - simpl rev in Heven. rewrite <- app_assoc in Heven. simpl app in Heven.
    pose proof (evenlySpaced_pair d (rev older ++ [next]) cur prev after)
      as Hstep.
    rewrite <- app_assoc in Hstep. specialize (Hstep Heven).
    simpl scanStates. unfold scanBody. rewrite Hstep.
    rewrite (Z.eqb_sym d lastStep).
    simpl rev. rewrite <- app_assoc. simpl app.
    replace (Z.of_nat (length (next :: older)))
      with (1 + Z.of_nat (length older)) by (simpl length; lia).
    destruct (lastStep =? d) eqn:E.
    + apply Z.eqb_eq in E. subst lastStep.
      rewrite (IH cur (prev :: after) next d (wrap32 (stepCount + 1)) Heven)
        by (left; reflexivity).
      rewrite Z.eqb_refl, <- Z.add_assoc, wrap32_idem_add.
      f_equal; f_equal; unfold wrap32; f_equal; lia.
    + apply Z.eqb_neq in E. destruct Hstart as [Hstart|Hstart]; [congruence|].
      apply Z.ltb_lt in Hstart. rewrite Z.geb_leb.
      assert (Hle : (MERGE_COUNT <=? stepCount) = false)
        by (apply Z.leb_gt, Z.ltb_lt; exact Hstart).
      rewrite Hle.
      rewrite (IH cur (prev :: after) next d 1 Heven) by (left; reflexivity).
      rewrite Z.eqb_refl. f_equal; f_equal; unfold wrap32; f_equal; lia.
Qed.

(** The scan [compressStates] starts on an evenly spaced list, split at its
    [SINGLE_STEPS] newest entries. *)
Lemma scanStates_evenly_from_start (d : Z) (front back : list RewindState)
      (cur : RewindState) (older : list RewindState) :
  back <> [] ->
  rev front = cur :: older ->
  evenlySpaced d (front ++ back) = true ->
  scanStates back cur older 0 0
  = Some (front ++ back, wrap32 (Z.of_nat (length front))).
Proof.
  intros Hback Hfront Heven.
  assert (Hf : front = rev older ++ [cur]).
  { rewrite <- (rev_involutive front), Hfront. reflexivity. }
  destruct back as [|prev after]; [contradiction|].
  subst front. rewrite <- app_assoc in Heven |- *. simpl app in Heven |- *.
  rewrite (scanStates_evenlySpaced d older prev after cur 0 0 Heven)
    by (right; reflexivity).
  do 2 f_equal. rewrite length_app, length_rev. simpl length.
  destruct (0 =? d); f_equal; lia.
Qed.

(** C6: in the scan an entry is erased only in a pass whose step differs
    from the last one while the counter has reached [MERGE_COUNT]: then the
    entry behind [prevRit] goes and the counter restarts at 2.  A pass with
    the same step only increments the counter, so the scan of an evenly
    spaced list erases nothing and ends with the counter at the number of
    steps it compared. *)
Theorem C6_eviction_when_step_changes :
  (forall (prev : RewindState) (after : list RewindState) (cur : RewindState)
          (lastStep stepCount : Z) (newer' : list RewindState)
          (lastStep' stepCount' : Z),
      scanBody (prev :: after) cur lastStep stepCount
      = Some (newer', lastStep', stepCount') ->
      (cycleStep cur prev = lastStep /\
       newer' = prev :: after /\ lastStep' = lastStep /\
       stepCount' = wrap32 (stepCount + 1)) \/
      (cycleStep cur prev <> lastStep /\ stepCount < MERGE_COUNT /\
       newer' = prev :: after /\ lastStep' = cycleStep cur prev /\
       stepCount' = 1) \/
      (cycleStep cur prev <> lastStep /\ MERGE_COUNT <= stepCount /\
       exists victim after',
         after = victim :: after' /\
         newer' = prev :: after' /\ lastStep' = cycleStep cur prev /\
         stepCount' = 2)) /\
  (forall (d : Z) (front back : list RewindState) (cur : RewindState)
          (older : list RewindState),
      length back = Z.to_nat SINGLE_STEPS ->
      rev front = cur :: older ->
      evenlySpaced d (front ++ back) = true ->
      scanStates back cur older 0 0
      = Some (front ++ back, wrap32 (Z.of_nat (length front)))).
Proof.
  split.
  - intros prev after cur lastStep stepCount newer' lastStep' stepCount'.
    unfold scanBody.
    destruct (cycleStep cur prev =? lastStep) eqn:Estep.
    + apply Z.eqb_eq in Estep. intros H. injection H as <- <- <-.
      left. tauto.
    + apply Z.eqb_neq in Estep. rewrite Z.geb_leb.
      destruct (MERGE_COUNT <=? stepCount) eqn:Emerge.
      * apply Z.leb_le in Emerge.
        destruct after as [|victim after']; [discriminate|].
        intros H. injection H as <- <- <-.
        right; right. split; [exact Estep|]. split; [exact Emerge|].
        exists victim, after'. tauto.
      * apply Z.leb_gt in Emerge. intros H. injection H as <- <- <-.
        right; left. tauto.
  - intros d front back cur older Hback Hfront Heven.
    apply (scanStates_evenly_from_start d); try assumption.
    intros ->. discriminate.
Qed.

Lemma C6_eviction_when_step_changes_witness :
  (scanBody [snapshot 120 2; snapshot 180 3; snapshot 240 4] (snapshot 50 1)
            60 4
   = Some ([snapshot 120 2; snapshot 240 4], 70, 2) /\
   exists victim after',
     [snapshot 180 3; snapshot 240 4] = victim :: after' /\
     [snapshot 120 2; snapshot 240 4] = snapshot 120 2 :: after') /\
  (exists front back cur older,
      myStateList (rm (after (captures 60 112))) = front ++ back /\
      length front = 52%nat /\
      scanStates back cur older 0 0 = Some (front ++ back, 52)).
Proof.
  destruct C6_eviction_when_step_changes as [Hbody Heven].
  split.
  - assert (E : scanBody [snapshot 120 2; snapshot 180 3; snapshot 240 4]
                         (snapshot 50 1) 60 4
                = Some ([snapshot 120 2; snapshot 240 4], 70, 2))
      by (vm_compute; reflexivity).
    split; [exact E|].
    destruct (Hbody _ _ _ _ _ _ _ _ E)
      as [(Hsame & _) | [(_ & Hlow & _) | (_ & _ & victim & after' & Ha & Hn & _)]].
    + vm_compute in Hsame. discriminate.
    + vm_compute in Hlow. discriminate.
    + exists victim, after'. split; [exact Ha | exact Hn].
  - exists (firstn 52 (myStateList (rm (after (captures 60 112))))),
           (skipn 52 (myStateList (rm (after (captures 60 112))))),
           (snapshot 3120 52),
           (tl (rev (firstn 52 (myStateList (rm (after (captures 60 112))))))).
    split; [symmetry; apply firstn_skipn|].
    split; [vm_compute; reflexivity|].
    apply (Heven 60).
    + vm_compute. reflexivity.
    + vm_compute. reflexivity.
    + rewrite firstn_skipn. vm_compute. reflexivity.
Defined.

(** C6, as the specification words it, fails.  When a fourth equal step is
    met the counter goes from 3 to 4 and the list stays as it is; and the
    scan of 112 entries that are 60 cycles apart compares 52 equal steps
    and returns all 112 entries. *)
Lemma C6_eviction_counterexample :
  scanBody [snapshot 120 2; snapshot 180 3; snapshot 240 4] (snapshot 60 1)
           60 3
  = Some ([snapshot 120 2; snapshot 180 3; snapshot 240 4], 60, 4) /\
  cycleSteps (myStateList (rm (after (captures 60 112)))) = repeat 60 111%nat /\
  compressStates_of (myStateList (rm (after (captures 60 112))))
  = eraseSecond (myStateList (rm (after (captures 60 112)))) /\
  scanStates (skipn 52 (myStateList (rm (after (captures 60 112)))))
             (snapshot 3120 52)
             (tl (rev (firstn 52 (myStateList (rm (after (captures 60 112)))))))
             0 0
  = Some (myStateList (rm (after (captures 60 112))), 52).
Proof.
  split; [vm_compute; reflexivity|].
  split; [vm_compute; reflexivity|].
  split; vm_compute; reflexivity.
Qed.

(** ** Compaction inside addState *)

Lemma compressStates_full (w : Machine) :
  size (rm w) = MAX_SIZE ->
  exists kept a,
    compressStates w
    = Some (tt, mkMachine (withFrameLst a (withStateList kept (rm w)))
                          (console w) (events w)) /\
    compressStates_of (myStateList (rm w)) = Some kept /\
    Z.of_nat (length kept) < MAX_SIZE /\
    lastn (Z.to_nat SINGLE_STEPS) kept
    = lastn (Z.to_nat SINGLE_STEPS) (myStateList (rm w)).
Proof.
  intros Hfull.
  destruct (compressStates_of_full (myStateList (rm w)) Hfull)
    as (kept & Hc & Hlen & Hne & Hlast).
  unfold compressStates, bind at 1 2 3, getRM, liftOpt, putRM.
  rewrite Hc. cbn [rm console events].
  match goal with
  | |- context [debugList ?x] => destruct (debugList_answers x) as [a Ha]
  end.
  - exact Hne.
  - unfold size. cbn [rm withStateList myStateList]. lia.
  - exists kept, a. rewrite Ha. cbn [rm console events].
    split; [reflexivity|]. split; [reflexivity|]. split; assumption.
Qed.

(** Compaction of [MAX_SIZE] evenly spaced entries erases the second
    oldest and no other. *)
Lemma compressStates_of_evenlySpaced (d : Z) (l : list RewindState) :
  Z.of_nat (length l) = MAX_SIZE ->
  evenlySpaced d l = true ->
  compressStates_of l = eraseSecond l.
Proof.
  intros Hl Heven. rewrite MAX_SIZE_eq in Hl.
  destruct (split_lastn (Z.to_nat SINGLE_STEPS) l) as [Hsplit Hback].
  { unfold SINGLE_STEPS. lia. }
  set (back := lastn (Z.to_nat SINGLE_STEPS) l) in *.
  set (front := firstn (length l - Z.to_nat SINGLE_STEPS) l) in *.
  assert (Hlen : length l = (length front + length back)%nat).
  { rewrite Hsplit at 1. apply length_app. }
  assert (Hnn : back <> []).
  { intros E. rewrite E in Hback. discriminate. }
  destruct (rev front) as [|cur older] eqn:Efront.
  { apply (f_equal (@length _)) in Efront. rewrite length_rev in Efront.
    simpl in Efront. rewrite Hback in Hlen. unfold SINGLE_STEPS in Hlen. lia. }
  rewrite Hsplit in Heven.
  pose proof (scanStates_evenly_from_start d front back cur older
                Hnn Efront Heven) as Hscan.
  rewrite Hsplit at 1. unfold compressStates_of. cbv zeta.
  rewrite rev_app_distr.
  assert (Hrb : length (rev back) = Z.to_nat SINGLE_STEPS)
    by (rewrite length_rev; exact Hback).
  rewrite (skipn_exact _ _ _ Hrb), (firstn_exact _ _ _ Hrb), rev_involutive.
  rewrite Efront, Hscan, <- Hsplit.
  assert (Hfull : (Z.of_nat (length l) =? MAX_SIZE) = true).
  { apply Z.eqb_eq. rewrite MAX_SIZE_eq. exact Hl. }
  rewrite Hfull, orb_true_r. reflexivity.
Qed.

(** C3: [addState] on a list of [MAX_SIZE] entries first compacts it.  The
    compaction leaves fewer than [MAX_SIZE] entries and the [SINGLE_STEPS]
    newest ones as they were; the new snapshot is then appended, so that
    the list is within [MAX_SIZE] again, and holds exactly [MAX_SIZE]
    entries when the entries were evenly spaced. *)
Theorem C3_compaction_before_append (message : string) (cap : Capture)
        (w : Machine) :
  saveState_ok cap = true ->
  saveDisplay_ok cap = true ->
  myCurrentIt (rm w) = ItEnd ->
  size (rm w) = MAX_SIZE ->
  exists wc w',
    compressStates w = Some (tt, wc) /\
    size (rm wc) < MAX_SIZE /\
    lastn (Z.to_nat SINGLE_STEPS) (myStateList (rm wc))
    = lastn (Z.to_nat SINGLE_STEPS) (myStateList (rm w)) /\
    addState message cap w = Some (true, w') /\
    myStateList (rm w')
    = myStateList (rm wc)
      ++ [mkRewindState (serialized cap) (tia_cycles (console w))
                        (tia_frameCount (console w))] /\
    size (rm w') <= MAX_SIZE /\
    forall d,
      evenlySpaced d (myStateList (rm w)) = true ->
      eraseSecond (myStateList (rm w)) = Some (myStateList (rm wc)) /\
      size (rm w') = MAX_SIZE.
Proof.
  intros Hs Hd Hit Hfull.
  destruct (compressStates_full w Hfull) as (kept & a & Hc & Hof & Hlen & Hlast).
  assert (Hsize : size (rm w) <= MAX_SIZE) by lia.
  destruct (addState_captured message cap w Hs Hd Hit Hsize)
    as (kept' & w' & Hadd & _ & Hkept & Hlist & _).
  assert (kept' = kept) as ->.
  { destruct Hkept as [[Hlt _]|[_ Hof']]; [lia|]. congruence. }
  eexists. exists w'. split; [exact Hc|]. cbn [rm myStateList withFrameLst
                                                 withStateList].
  unfold size at 1.
  cbn [rm myStateList withFrameLst withStateList].
  split; [exact Hlen|]. split; [exact Hlast|]. split; [exact Hadd|].
  split; [exact Hlist|].
  assert (Hsize' : size (rm w') = Z.of_nat (length kept) + 1).
  { unfold size. rewrite Hlist, length_app. simpl length. lia. }
  split; [lia|].
  intros d Heven.
  pose proof (compressStates_of_evenlySpaced d (myStateList (rm w)) Hfull Heven)
    as Herase.
  rewrite Hof in Herase. split; [symmetry; exact Herase|].
  rewrite Hsize'. unfold size in Hfull.
  destruct (myStateList (rm w)) as [|x [|y rest]]; try discriminate.
  simpl in Herase. injection Herase as ->. simpl length in *. lia.
Qed.

Lemma C3_compaction_before_append_witness :
  size (rm (after fullEvenly)) = MAX_SIZE /\
  evenlySpaced 60 (myStateList (rm (after fullEvenly))) = true /\
  exists wc w',
    compressStates (after fullEvenly) = Some (tt, wc) /\
    size (rm wc) < MAX_SIZE /\
    lastn (Z.to_nat SINGLE_STEPS) (myStateList (rm wc))
    = lastn (Z.to_nat SINGLE_STEPS) (myStateList (rm (after fullEvenly))) /\
    addState "" captured (after fullEvenly) = Some (true, w') /\
    myStateList (rm w') = myStateList (rm wc) ++ [snapshot 6780 113] /\
    size (rm w') = MAX_SIZE.
Proof.
  assert (Hfull : size (rm (after fullEvenly)) = MAX_SIZE)
    by (vm_compute; reflexivity).
  assert (Heven : evenlySpaced 60 (myStateList (rm (after fullEvenly))) = true)
    by (vm_compute; reflexivity).
  assert (Hit : myCurrentIt (rm (after fullEvenly)) = ItEnd)
    by (vm_compute; reflexivity).
  split; [exact Hfull|]. split; [exact Heven|].
  destruct (C3_compaction_before_append
              "" captured (after fullEvenly) eq_refl eq_refl Hit Hfull)
    as (wc & w' & Hc & Hlt & Hlast & Hadd & Hlist & _ & Hd).
  exists wc, w'. destruct (Hd 60 Heven) as [_ Hsize].
  split; [exact Hc|]. split; [exact Hlt|]. split; [exact Hlast|].
  split; [exact Hadd|]. split; [exact Hlist | exact Hsize].
Defined.

(** C3, as the specification words it, fails.  With [MAX_SIZE] entries 60
    cycles apart one more [addState] answers [true] and leaves [MAX_SIZE]
    entries, not fewer: compaction erased one entry and the new snapshot
    took its place. *)
Lemma C3_size_counterexample :
  calls fullEvenly boot0 = Some (tt, after fullEvenly) /\
  size (rm (after fullEvenly)) = MAX_SIZE /\
  cycleSteps (myStateList (rm (after fullEvenly))) = repeat 60 111%nat /\
  addState "" captured (after fullEvenly)
  = Some (true, after (fullEvenly ++ [DoAddState "" captured])) /\
  size (rm (after (fullEvenly ++ [DoAddState "" captured]))) = MAX_SIZE /\
  ~ size (rm (after (fullEvenly ++ [DoAddState "" captured]))) < MAX_SIZE.
Proof.
  split; [vm_compute; reflexivity|].
  split; [vm_compute; reflexivity|].
  split; [vm_compute; reflexivity|].
  split; [vm_compute; reflexivity|].
  split; [vm_compute; reflexivity|].
  vm_compute. intros H. discriminate H.
Qed.

(** * Further properties of the code *)

(** ** rewindState and unwindState, whatever the list *)

Lemma walkBack_In (minCycles : Z) (emulation : bool) (now : Z)
      (rl : list RewindState) (s : RewindState) :
  walkBack minCycles emulation now rl = Some s -> In s rl.
Proof.
  induction rl as [|x rl IH]; simpl; [discriminate|].
  destruct (emulation && (wrap64 (now - cycles x) <? minCycles)).
  - intros H. right. exact (IH H).
  - intros H. injection H as ->. left. reflexivity.
Qed.

(** X1: A rewind that returns answers [false] exactly on the empty list, where
    it changes nothing at all; when it answers [true] it has asked for one
    entry of the list to be loaded, state and display, and for one message;
    in no case does it change a data member of the manager. *)
Theorem rewindState_returns (emulation : bool) (w w' : Machine) (b : bool) :
  rewindState emulation w = Some (b, w') ->
  rm w' = rm w /\
  (b = false <-> myStateList (rm w) = []) /\
  (b = false -> w' = w) /\
  (b = true ->
   exists s text,
     In s (myStateList (rm w)) /\
     events w' = events w ++ [LoadState s; LoadDisplay s; ShowMessage text]).
Proof.
  intros Hrew. split; [exact (rewindState_rm emulation w w' b Hrew)|].
  destruct (myStateList (rm w)) as [|x l] eqn:El.
  - rewrite (rewindState_empty emulation w El) in Hrew.
    injection Hrew as <- <-.
    split; [tauto|]. split; [reflexivity | discriminate].
  - assert (Hne : myStateList (rm w) <> []) by (rewrite El; discriminate).
    destruct (walkBack (FRAME_CYCLES * 3 / 4) emulation
                       (tia_cycles (console w)) (rev (myStateList (rm w))))
      as [s|] eqn:Ewalk.
    + rewrite (rewindState_found emulation w s Hne Ewalk) in Hrew.
      injection Hrew as <- <-.
      split; [split; discriminate|]. split; [discriminate|].
      intros _. exists s, "Rewind 0 cycle(s)"%string. split; [|reflexivity].
      rewrite <- El. apply in_rev. exact (walkBack_In _ _ _ _ _ Ewalk).
    + apply size_pos_iff in Hne.
      unfold rewindState, bind, getRM, getConsole, liftOpt in Hrew.
      rewrite Hne, Ewalk in Hrew. discriminate.
Qed.

Lemma rewindState_returns_witness :
  rm (after (captures 100 3 ++ [DoRewindState false]))
  = rm (after (captures 100 3)) /\
  exists s text,
    In s (myStateList (rm (after (captures 100 3)))) /\
    events (after (captures 100 3 ++ [DoRewindState false]))
    = events (after (captures 100 3))
      ++ [LoadState s; LoadDisplay s; ShowMessage text].
Proof.
  assert (Hrew : rewindState false (after (captures 100 3))
                 = Some (true, after (captures 100 3 ++ [DoRewindState false])))
    by (vm_compute; reflexivity).
  destruct (rewindState_returns false _ _ _ Hrew) as (Hrm & _ & _ & Hload).
  split; [exact Hrm | exact (Hload eq_refl)].
Defined.

(** X2: Fine rewinds do not move back through the list: a second one, right
    after the first, loads the newest entry again. *)
Theorem rewindDebuggerState_twice (w : Machine) (older : list RewindState)
        (s : RewindState) :
  myStateList (rm w) = older ++ [s] ->
  exists w1 w2 text1 text2,
    rewindDebuggerState w = Some (true, w1) /\
    rewindDebuggerState w1 = Some (true, w2) /\
    myStateList (rm w2) = older ++ [s] /\
    events w2 = events w ++ [LoadState s; LoadDisplay s; ShowMessage text1;
                             LoadState s; LoadDisplay s; ShowMessage text2].
Proof.
  intros Hl.
  assert (Hfine : forall v, myStateList (rm v) = older ++ [s] ->
                            rewindDebuggerState v = Some (true, rewound v s)).
  { intros v Hv. apply rewindState_found.
    - rewrite Hv. intros E. apply app_eq_nil in E. destruct E; discriminate.
    - rewrite Hv, rev_app_distr. reflexivity. }
  exists (rewound w s), (rewound (rewound w s) s),
         "Rewind 0 cycle(s)"%string, "Rewind 0 cycle(s)"%string.
  split; [exact (Hfine w Hl)|]. split; [exact (Hfine (rewound w s) Hl)|].
  split; [exact Hl|]. simpl. rewrite <- app_assoc. reflexivity.
Qed.

Lemma rewindDebuggerState_twice_witness :
  exists w1 w2 text1 text2,
    rewindDebuggerState (after (captures 100 3)) = Some (true, w1) /\
    rewindDebuggerState w1 = Some (true, w2) /\
    myStateList (rm w2) = [snapshot 100 1; snapshot 200 2] ++ [snapshot 300 3] /\
    events w2 = events (after (captures 100 3))
                ++ [LoadState (snapshot 300 3); LoadDisplay (snapshot 300 3);
                    ShowMessage text1;
                    LoadState (snapshot 300 3); LoadDisplay (snapshot 300 3);
                    ShowMessage text2].
Proof.
  apply (rewindDebuggerState_twice (after (captures 100 3))
           [snapshot 100 1; snapshot 200 2] (snapshot 300 3)).
  vm_compute. reflexivity.
Defined.

(** The coarse walk answers exactly when some entry is [minCycles] or more
    away from the present. *)
Lemma walkBack_None_iff (minCycles now : Z) (rl : list RewindState) :
  walkBack minCycles true now rl = None <->
  Forall (fun x => cyclesBack now x < minCycles) rl.
Proof.
  split.
  - induction rl as [|x rl IH]; simpl; [constructor|].
    destruct (wrap64 (now - cycles x) <? minCycles) eqn:E; [|discriminate].
    intros H. constructor; [apply Z.ltb_lt; exact E | exact (IH H)].
  - apply walkBack_none.
Qed.

(** X4: On a list that is not empty the coarse rewind has no result, the walk
    having left the list at [rend()], exactly when every entry is less than
    [FRAME_CYCLES * 3 / 4] cycles away from the present. *)
Theorem rewindEmulationState_undefined_iff (w : Machine) :
  myStateList (rm w) <> [] ->
  (rewindEmulationState w = None <->
   Forall (fun x => cyclesBack (tia_cycles (console w)) x < FRAME_CYCLES * 3 / 4)
          (myStateList (rm w))).
Proof.
  intros Hne.
  assert (Hrev : Forall (fun x => cyclesBack (tia_cycles (console w)) x
                                  < FRAME_CYCLES * 3 / 4)
                        (myStateList (rm w)) <->
                 walkBack (FRAME_CYCLES * 3 / 4) true (tia_cycles (console w))
                          (rev (myStateList (rm w))) = None).
  { rewrite walkBack_None_iff, !Forall_forall.
    split; intros H x Hx; apply H; [apply in_rev | apply in_rev in Hx]; exact Hx. }
  rewrite Hrev. clear Hrev.
  destruct (walkBack (FRAME_CYCLES * 3 / 4) true (tia_cycles (console w))
                     (rev (myStateList (rm w)))) as [s|] eqn:Ewalk.
  - unfold rewindEmulationState.
    rewrite (rewindState_found true w s Hne Ewalk). split; discriminate.
  - apply size_pos_iff in Hne.
    unfold rewindEmulationState, rewindState, bind, getRM, getConsole, liftOpt.
    rewrite Hne, Ewalk. tauto.
Qed.

Lemma rewindEmulationState_undefined_iff_witness :
  rewindEmulationState (after (captures 100 3)) = None <->
  Forall (fun x => cyclesBack (tia_cycles (console (after (captures 100 3)))) x
                   < FRAME_CYCLES * 3 / 4)
         (myStateList (rm (after (captures 100 3)))).
Proof.
  apply (rewindEmulationState_undefined_iff (after (captures 100 3))).
  vm_compute. discriminate.
Defined.

(** X5: The distance is unsigned.  When the TIA's cycles are below those of the
    newest entry, as after a rewind to an older entry, the difference wraps
    to a large number and the coarse rewind restores the newest entry. *)
Theorem rewindEmulationState_clock_behind (w : Machine)
        (older : list RewindState) (s : RewindState) :
  myStateList (rm w) = older ++ [s] ->
  0 <= tia_cycles (console w) < cycles s ->
  cycles s - tia_cycles (console w) <= 2 ^ 64 - FRAME_CYCLES * 3 / 4 ->
  exists w' text,
    rewindEmulationState w = Some (true, w') /\
    rm w' = rm w /\
    events w' = events w ++ [LoadState s; LoadDisplay s; ShowMessage text].
Proof.
  intros Hl Hnow Hgap.
  exists (rewound w s), "Rewind 0 cycle(s)"%string.
  split; [|split; reflexivity].
  apply rewindState_found.
  - rewrite Hl. intros E. apply app_eq_nil in E. destruct E; discriminate.
  - rewrite Hl, rev_app_distr. cbn [rev app walkBack andb].
    assert (E : wrap64 (tia_cycles (console w) - cycles s)
                = tia_cycles (console w) - cycles s + 2 ^ 64).
    { unfold wrap64. symmetry. apply (Z.mod_unique _ _ (-1)); [|lia].
      left. rewrite min_rewind_cycles_eq in Hgap. lia. }
    assert (Hfar : (wrap64 (tia_cycles (console w) - cycles s)
                    <? FRAME_CYCLES * 3 / 4) = false).
    { apply Z.ltb_ge. rewrite E. lia. }
    rewrite Hfar. reflexivity.
Qed.

Lemma rewindEmulationState_clock_behind_witness :
  tia_cycles (console (after [DoEmulate 100 1 262; DoAddState "" captured;
                              DoEmulate 1000000 50 262; DoAddState "" captured;
                              DoEmulate 100 0 262; DoRewindState true])) = 100 /\
  exists w' text,
    rewindEmulationState
      (after [DoEmulate 100 1 262; DoAddState "" captured;
              DoEmulate 1000000 50 262; DoAddState "" captured;
              DoEmulate 100 0 262; DoRewindState true])
    = Some (true, w') /\
    rm w' = rm (after [DoEmulate 100 1 262; DoAddState "" captured;
                       DoEmulate 1000000 50 262; DoAddState "" captured;
                       DoEmulate 100 0 262; DoRewindState true]) /\
    events w'
    = events (after [DoEmulate 100 1 262; DoAddState "" captured;
                     DoEmulate 1000000 50 262; DoAddState "" captured;
                     DoEmulate 100 0 262; DoRewindState true])
      ++ [LoadState (snapshot 1000100 51); LoadDisplay (snapshot 1000100 51);
          ShowMessage text].
Proof.
  split; [vm_compute; reflexivity|].
  apply (rewindEmulationState_clock_behind _ [snapshot 100 1]
                                           (snapshot 1000100 51)).
  - vm_compute. reflexivity.
  - vm_compute. split; [discriminate | reflexivity].
  - vm_compute. discriminate.
Defined.

(** X3: The fine rewind always returns: it stops at [rbegin()] whatever the
    cycles are, and answers whether the list holds an entry. *)
Theorem rewindDebuggerState_returns (w : Machine) :
  exists b w',
    rewindDebuggerState w = Some (b, w') /\
    (b = true <-> myStateList (rm w) <> []).
Proof.
  destruct (myStateList (rm w)) as [|x l] eqn:El.
  - exists false, w. split; [exact (rewindState_empty false w El)|].
    split; [discriminate | intros H; contradiction].
  - destruct (exists_last (l := x :: l)) as (older & s & Hl); [discriminate|].
    exists true, (rewound w s). split; [|split; [discriminate | reflexivity]].
    apply rewindState_found.
    + rewrite El. discriminate.
    + rewrite El, Hl, rev_app_distr. reflexivity.
Qed.

(** ** The counts getMessage prints *)

Lemma decimal_0 : decimal 0 = "0"%string.
Proof. reflexivity. Qed.

(** X6: From the length of the last frame on, the number [getMessage] prints is
    a sixtieth, rounded down, of the number of units it names: frames of
    76 * 262 cycles, seconds of 60 such frames, minutes of 60 seconds.  So
    it prints 0 for every difference below a minute. *)
Theorem getMessage_of_sixtieth (now scanlines cylcesTo : Z) :
  76 <= wrap64 (now - cylcesTo) ->
  wrap32 (76 * scanlines) <= wrap64 (now - cylcesTo) ->
  getMessage_of now scanlines cylcesTo
  = (if wrap64 (now - cylcesTo) <? 76 * 262 * 60 then
       ("Rewind " ++ decimal (wrap64 (now - cylcesTo) / (76 * 262) / 60)
                  ++ " frame(s)")%string
     else if wrap64 (now - cylcesTo) <? 76 * 262 * 60 * 60 then
       ("Rewind " ++ decimal (wrap64 (now - cylcesTo) / (76 * 262 * 60) / 60)
                  ++ " second(s)")%string
     else
       ("Rewind "
          ++ decimal (wrap64 (now - cylcesTo) / (76 * 262 * 60 * 60) / 60)
          ++ " minute(s)")%string) /\
  (wrap64 (now - cylcesTo) < 76 * 262 * 60 ->
   getMessage_of now scanlines cylcesTo = "Rewind 0 frame(s)"%string) /\
  (76 * 262 * 60 <= wrap64 (now - cylcesTo) < 76 * 262 * 60 * 60 ->
   getMessage_of now scanlines cylcesTo = "Rewind 0 second(s)"%string).
Proof.
  intros H76 Hline. unfold getMessage_of.
  set (diff := wrap64 (now - cylcesTo)) in *.
  assert (H0 : (diff <? 0) = false) by (apply Z.ltb_ge; lia).
  assert (H1 : (diff <? 76) = false) by (apply Z.ltb_ge; lia).
  assert (H2 : (diff <? wrap32 (76 * scanlines)) = false)
    by (apply Z.ltb_ge; lia).
  rewrite H0, H1, H2.
  assert (Ef : diff / 76 / 262 / 60 = diff / (76 * 262) / 60).
  { rewrite (Z.div_div diff 76 262) by lia. reflexivity. }
  assert (Es : diff / 76 / 262 / 60 / 60 = diff / (76 * 262 * 60) / 60).
  { rewrite (Z.div_div diff 76 262), (Z.div_div diff (76 * 262) 60) by lia.
    reflexivity. }
  assert (Em : diff / 76 / 262 / 60 / 60 / 60
               = diff / (76 * 262 * 60 * 60) / 60).
  { rewrite (Z.div_div diff 76 262), (Z.div_div diff (76 * 262) 60),
      (Z.div_div diff (76 * 262 * 60) 60) by lia.
    reflexivity. }
  rewrite Em, Es, Ef.
  split; [|split].
  - destruct (diff <? 76 * 262 * 60); [reflexivity|].
    destruct (diff <? 76 * 262 * 60 * 60); reflexivity.
  - intros Hlt. assert (E : (diff <? 76 * 262 * 60) = true)
      by (apply Z.ltb_lt; exact Hlt).
    rewrite E, (Z.div_div diff (76 * 262) 60) by lia.
    rewrite Z.div_small by lia. reflexivity.
  - intros [Hge Hlt].
    assert (E : (diff <? 76 * 262 * 60) = false) by (apply Z.ltb_ge; exact Hge).
    assert (E' : (diff <? 76 * 262 * 60 * 60) = true)
      by (apply Z.ltb_lt; exact Hlt).
    rewrite E, E', (Z.div_div diff (76 * 262 * 60) 60) by lia.
    rewrite Z.div_small by lia. reflexivity.
Qed.

Lemma getMessage_of_sixtieth_witness :
  getMessage_of (76 * 262 * 60 * 59) 262 0 = "Rewind 0 second(s)"%string /\
  getMessage_of (76 * 262 * 60 * 60 * 60) 262 0 = "Rewind 1 minute(s)"%string.
Proof.
  split.
  - apply (getMessage_of_sixtieth (76 * 262 * 60 * 59) 262 0).
    + vm_compute. discriminate.
    + vm_compute. discriminate.
    + vm_compute. split; [discriminate | reflexivity].
  - destruct (getMessage_of_sixtieth (76 * 262 * 60 * 60 * 60) 262 0)
      as [E _].
    + vm_compute. discriminate.
    + vm_compute. discriminate.
    + rewrite E. vm_compute. reflexivity.
Defined.

(** ** clear, empty and unwindState *)

(** X7: [clear] empties the list and touches no other member: the iterator,
    the counters and the array stay.  After it [empty] answers [true], and
    [rewindState] and [unwindState] answer [false] and change nothing. *)
Theorem clear_then_empty (w : Machine) :
  exists w1,
    clear w = Some (tt, w1) /\
    w1 = mkMachine (mkRewindManager [] (myCurrentIt (rm w)) (myFrameLst (rm w))
                                    (myStateCount (rm w)) (myLastFrames (rm w)))
                   (console w) (events w) /\
    empty w1 = Some (true, w1) /\
    (forall emulation, rewindState emulation w1 = Some (false, w1)) /\
    (forall emulation, unwindState emulation w1 = Some (false, w1)).
Proof.
  eexists. split; [reflexivity|]. split; [reflexivity|].
  split; [reflexivity|]. split; intros emulation; reflexivity.
Qed.

(** X8: [unwindState] restores nothing: it leaves the machine as it is and
    answers whether the list holds an entry, the opposite of [empty]. *)
Theorem unwindState_no_effect (emulation : bool) (w : Machine) :
  exists b,
    unwindState emulation w = Some (b, w) /\
    empty w = Some (negb b, w) /\
    (b = true <-> myStateList (rm w) <> []).
Proof.
  unfold unwindState, empty, bind, getRM, ret, size.
  destruct (myStateList (rm w)) as [|x l].
  - exists false. repeat split; try discriminate. intros H. contradiction.
  - exists true. repeat split; discriminate.
Qed.

(** X9: A machine that was cleared takes a capture as a new one does: the list
    is the captured snapshot alone. *)
Theorem clear_then_addState (w : Machine) (message : string) (cap : Capture) :
  Reachable w ->
  saveState_ok cap = true ->
  saveDisplay_ok cap = true ->
  exists w1 w2,
    clear w = Some (tt, w1) /\
    addState message cap w1 = Some (true, w2) /\
    myStateList (rm w2)
    = [mkRewindState (serialized cap) (tia_cycles (console w))
                     (tia_frameCount (console w))].
Proof.
  intros Hw Hs Hd. destruct (Reachable_inv w Hw) as [Hit _].
  destruct (clear_then_empty w) as (w1 & Hclear & Hw1 & _).
  assert (Hit1 : myCurrentIt (rm w1) = ItEnd) by (rewrite Hw1; exact Hit).
  assert (Hsize1 : size (rm w1) <= MAX_SIZE).
  { rewrite Hw1. unfold size. simpl. rewrite MAX_SIZE_eq. lia. }
  destruct (addState_captured message cap w1 Hs Hd Hit1 Hsize1)
    as (kept & w2 & Hadd & _ & Hkept & Hlist & _).
  exists w1, w2. split; [exact Hclear|]. split; [exact Hadd|].
  rewrite Hlist, Hw1. cbn [console].
  destruct Hkept as [[_ ->]|[Hfull _]].
  - rewrite Hw1. reflexivity.
  - rewrite Hw1 in Hfull. unfold size in Hfull. simpl in Hfull.
    rewrite MAX_SIZE_eq in Hfull. lia.
Qed.

Lemma clear_then_addState_witness :
  exists w1 w2,
    clear (after (captures 60 200)) = Some (tt, w1) /\
    addState "" captured w1 = Some (true, w2) /\
    myStateList (rm w2) = [snapshot 12000 200].
Proof.
  apply (clear_then_addState (after (captures 60 200)) "" captured).
  - apply (calls_Reachable (captures 60 200) boot0).
    + apply Reach_boot.
    + vm_compute. reflexivity.
  - reflexivity.
  - reflexivity.
Defined.

(** ** The iterator away from the end *)

Lemma popFuture_at (i : nat) (rl : list RewindState) :
  popFuture (ItAt i) rl = None.
Proof.
  induction rl as [|x rl IH]; simpl; [reflexivity|].
  destruct (i <? length rl)%nat; [exact IH | reflexivity].
Qed.

(** X10: With [myCurrentIt] at an entry the loop of [addState] that pops the
    entries behind the iterator never finds the iterator equal to [end()]:
    it has no result, and neither has an [addState] whose captures
    succeed.  The list is never cut back to the iterator. *)
Theorem addState_iterator_at_entry (w : Machine) (i : nat) (message : string)
        (cap : Capture) :
  myCurrentIt (rm w) = ItAt i ->
  discardFuture w = None /\
  (saveState_ok cap && saveDisplay_ok cap = true ->
   addState message cap w = None).
Proof.
  intros Hit.
  assert (Hloop : discardFuture w = None).
  { unfold discardFuture, bind, getRM, liftOpt. rewrite Hit, popFuture_at.
    reflexivity. }
  split; [exact Hloop|].
  intros Hok. unfold addState. rewrite Hok. unfold bind at 1. rewrite Hloop.
  reflexivity.
Qed.

Lemma addState_iterator_at_entry_witness :
  discardFuture
    (mkMachine (mkRewindManager [snapshot 100 1; snapshot 200 2] (ItAt 0)
                                [] 2 2)
               (mkConsole 300 3 262) []) = None /\
  addState "" captured
    (mkMachine (mkRewindManager [snapshot 100 1; snapshot 200 2] (ItAt 0)
                                [] 2 2)
               (mkConsole 300 3 262) []) = None.
Proof.
  destruct (addState_iterator_at_entry
              (mkMachine (mkRewindManager [snapshot 100 1; snapshot 200 2]
                                          (ItAt 0) [] 2 2)
                         (mkConsole 300 3 262) [])
              0%nat "" captured eq_refl) as [Hloop Hadd].
  split; [exact Hloop | exact (Hadd eq_refl)].
Defined.

(** ** What compaction leaves of a list *)

Lemma Subseq_refl {A : Type} (l : list A) : Subseq l l.
Proof. induction l; constructor; assumption. Qed.

Lemma Subseq_trans {A : Type} (l3 : list A) :
  forall l1 l2, Subseq l1 l2 -> Subseq l2 l3 -> Subseq l1 l3.
Proof.
  induction l3 as [|z l3 IH]; intros l1 l2 H12 H23.
  - inversion H23; subst. exact H12.
  - inversion H23; subst.
    + inversion H12; subst.
      * apply Subseq_keep. eapply IH; eassumption.
      * apply Subseq_drop. eapply IH; eassumption.
    + apply Subseq_drop. eapply IH; eassumption.
Qed.

Lemma Subseq_app_same {A : Type} (p l' l : list A) :
  Subseq l' l -> Subseq (p ++ l') (p ++ l).
Proof. intros H. induction p; simpl; [exact H | constructor; assumption]. Qed.

Lemma Subseq_Forall {A : Type} (P : A -> Prop) (l' l : list A) :
  Subseq l' l -> Forall P l -> Forall P l'.
Proof.
  induction 1 as [|x l' l _ IH|x l' l _ IH]; intros HP.
  - constructor.
  - inversion HP; subst. constructor; [assumption | apply IH; assumption].
  - inversion HP; subst. apply IH; assumption.
Qed.

Lemma Subseq_length {A : Type} (l' l : list A) :
  Subseq l' l -> (length l' <= length l)%nat.
Proof. induction 1; simpl; lia. Qed.

Lemma scanBody_Subseq (newer : list RewindState) (cur : RewindState)
      (lastStep stepCount : Z) (newer' : list RewindState)
      (lastStep' stepCount' : Z) :
  scanBody newer cur lastStep stepCount = Some (newer', lastStep', stepCount') ->
  Subseq newer' newer.
Proof.
  unfold scanBody. destruct newer as [|prev after]; [discriminate|].
  destruct (cycleStep cur prev =? lastStep).
  - intros H. injection H as <- _ _. apply Subseq_refl.
  - destruct (stepCount >=? MERGE_COUNT).
    + destruct after as [|victim after']; [discriminate|].
      intros H. injection H as <- _ _.
      apply Subseq_keep, Subseq_drop, Subseq_refl.
    + intros H. injection H as <- _ _. apply Subseq_refl.
Qed.

Lemma hd_error_app {A : Type} (a b : list A) :
  a <> [] -> hd_error (a ++ b) = hd_error a.
Proof. destruct a; [contradiction | reflexivity]. Qed.

(** The scan returns the list it walks through with some entries left out,
    and the oldest entry is not among them. *)
Lemma scanStates_Subseq (older : list RewindState) :
  forall (newer : list RewindState) (cur : RewindState) (lastStep stepCount : Z)
         (l' : list RewindState) (stepCount' : Z),
    scanStates newer cur older lastStep stepCount = Some (l', stepCount') ->
    Subseq l' (rev older ++ cur :: newer) /\
    hd_error l' = hd_error (rev older ++ cur :: newer).
Proof.
  induction older as [|next older IH];
    intros newer cur lastStep stepCount l' stepCount'; simpl scanStates;
    destruct (scanBody newer cur lastStep stepCount)
      as [[[newer1 lastStep1] stepCount1]|] eqn:Ebody; try discriminate;
    pose proof (scanBody_Subseq _ _ _ _ _ _ _ Ebody) as Hsub.
  - intros H. injection H as <- _. simpl.
    split; [apply Subseq_keep; exact Hsub | reflexivity].
  - intros H. destruct (IH _ _ _ _ _ _ H) as [Hl' Hhd].
    simpl rev. rewrite <- app_assoc. simpl app.
    split.
    + apply (Subseq_trans _ _ _ Hl'). apply Subseq_app_same.
      apply Subseq_keep, Subseq_keep. exact Hsub.
    + rewrite Hhd.
      change (next :: cur :: newer1) with ([next] ++ cur :: newer1).
      change (next :: cur :: newer) with ([next] ++ cur :: newer).
      rewrite !app_assoc.
      assert (Hne : rev older ++ [next] <> []).
      { intros E. apply app_eq_nil in E. destruct E; discriminate. }
      rewrite !(hd_error_app _ _ Hne). reflexivity.
Qed.

Lemma compressStates_of_short (l : list RewindState) :
  (length l <= Z.to_nat SINGLE_STEPS)%nat -> compressStates_of l = None.
Proof.
  intros H. unfold compressStates_of. cbv zeta.
  rewrite skipn_all2; [reflexivity|]. rewrite length_rev. exact H.
Qed.

Lemma compressStates_of_facts (l : list RewindState) :
  (compressStates_of l = None <-> (length l <= Z.to_nat SINGLE_STEPS)%nat) /\
  forall l',
    compressStates_of l = Some l' ->
    Subseq l' l /\
    hd_error l' = hd_error l /\
    lastn (Z.to_nat SINGLE_STEPS) l' = lastn (Z.to_nat SINGLE_STEPS) l /\
    (Z.to_nat SINGLE_STEPS < length l' <= length l)%nat.
Proof.
  destruct (Nat.le_gt_cases (length l) (Z.to_nat SINGLE_STEPS)) as [Hshort|Hlong].
  { pose proof (compressStates_of_short l Hshort) as E. rewrite E.
    split; [tauto | discriminate]. }
  destruct (split_lastn (Z.to_nat SINGLE_STEPS) l) as [Hsplit Hback]; [lia|].
  set (back := lastn (Z.to_nat SINGLE_STEPS) l) in *.
  set (front := firstn (length l - Z.to_nat SINGLE_STEPS) l) in *.
  assert (Hlen : length l = (length front + length back)%nat).
  { rewrite Hsplit at 1. apply length_app. }
  assert (Hfront : front <> []).
  { intros E. rewrite E in Hlen. simpl in Hlen. lia. }
  destruct (compressStates_of_keeps front back Hfront Hback)
    as (pre & Hc & Hpre & _).
  rewrite <- Hsplit in Hc.
  split.
  { rewrite Hc. split; [discriminate | lia]. }
  intros l' Hl'. rewrite Hc in Hl'. injection Hl' as <-.
  assert (Hlast : lastn (Z.to_nat SINGLE_STEPS) (pre ++ back) = back)
    by (apply lastn_app; exact Hback).
  assert (Hlens : (Z.to_nat SINGLE_STEPS < length (pre ++ back) <= length l)%nat)
    by (rewrite length_app; lia).
  split; [|split; [|split; [exact Hlast | exact Hlens]]].
  - revert Hc. unfold compressStates_of. cbv zeta.
    destruct (skipn (Z.to_nat SINGLE_STEPS) (rev l)) as [|cur older] eqn:Eskip;
      [discriminate|].
    destruct (scanStates _ cur older 0 0) as [[l1 stepCount]|] eqn:Escan;
      [|discriminate].
    destruct (scanStates_Subseq _ _ _ _ _ _ _ Escan) as [Hsub _].
    assert (Hl : rev older ++ cur :: rev (firstn (Z.to_nat SINGLE_STEPS) (rev l))
                 = l).
    { rewrite <- (rev_involutive l) at 2.
      rewrite <- (firstn_skipn (Z.to_nat SINGLE_STEPS) (rev l)) at 2.
      rewrite Eskip, rev_app_distr. simpl. rewrite <- app_assoc. reflexivity. }
    rewrite Hl in Hsub.
    destruct (_ || _).
    + destruct l1 as [|a [|b l1]]; try discriminate.
      intros H. injection H as <-.
      apply (Subseq_trans _ _ _ (Subseq_keep a _ _ (Subseq_drop b _ _ (Subseq_refl l1)))).
      exact Hsub.
    + intros H. injection H as <-. exact Hsub.
  - revert Hc. unfold compressStates_of. cbv zeta.
    destruct (skipn (Z.to_nat SINGLE_STEPS) (rev l)) as [|cur older] eqn:Eskip;
      [discriminate|].
    destruct (scanStates _ cur older 0 0) as [[l1 stepCount]|] eqn:Escan;
      [|discriminate].
    destruct (scanStates_Subseq _ _ _ _ _ _ _ Escan) as [_ Hhd].
    assert (Hl : rev older ++ cur :: rev (firstn (Z.to_nat SINGLE_STEPS) (rev l))
                 = l).
    { rewrite <- (rev_involutive l) at 2.
      rewrite <- (firstn_skipn (Z.to_nat SINGLE_STEPS) (rev l)) at 2.
      rewrite Eskip, rev_app_distr. simpl. rewrite <- app_assoc. reflexivity. }
    rewrite Hl in Hhd.
    destruct (_ || _).
    + destruct l1 as [|a [|b l1]]; try discriminate.
      intros H. injection H as <-. exact Hhd.
    + intros H. injection H as <-. exact Hhd.
Qed.

(** X11: [compressStates] has a result exactly on the lists that are longer
    than [SINGLE_STEPS]: on a shorter list [std::advance] or the first
    pass of the loop leaves the list. *)
Theorem compressStates_of_defined_iff (l : list RewindState) :
  compressStates_of l = None <-> (length l <= Z.to_nat SINGLE_STEPS)%nat.
Proof. exact (proj1 (compressStates_of_facts l)). Qed.

(** X12: The result of [compressStates] is the list with some entries left out,
    the others unchanged and in their order; the oldest entry and the
    [SINGLE_STEPS] newest ones are never left out, so that more than
    [SINGLE_STEPS] entries remain. *)
Theorem compressStates_of_thins (l l' : list RewindState) :
  compressStates_of l = Some l' ->
  Subseq l' l /\
  hd_error l' = hd_error l /\
  lastn (Z.to_nat SINGLE_STEPS) l' = lastn (Z.to_nat SINGLE_STEPS) l /\
  (Z.to_nat SINGLE_STEPS < length l' <= length l)%nat.
Proof. exact (proj2 (compressStates_of_facts l) l'). Qed.

Lemma compressStates_of_thins_witness :
  exists l',
    compressStates_of (myStateList (rm (after (captures 60 200)))) = Some l' /\
    map cycles (firstn 12 l')
    = [60; 1980; 2940; 3900; 4380; 4860; 5340; 5580; 5820; 5940; 6060; 6180] /\
    Subseq l' (myStateList (rm (after (captures 60 200)))) /\
    hd_error l' = hd_error (myStateList (rm (after (captures 60 200)))) /\
    lastn (Z.to_nat SINGLE_STEPS) l'
    = lastn (Z.to_nat SINGLE_STEPS) (myStateList (rm (after (captures 60 200)))) /\
    (Z.to_nat SINGLE_STEPS < length l'
     <= length (myStateList (rm (after (captures 60 200)))))%nat.
Proof.
  eexists. split; [vm_compute; reflexivity|].
  split; [vm_compute; reflexivity|].
  apply compressStates_of_thins. vm_compute. reflexivity.
Defined.

(** ** Captures *)

(** X13: A capture from a reachable machine succeeds when both serialization
    calls do.  The new snapshot, with the counters the TIA has, goes behind
    what compaction left of the list, which is the whole list below
    [MAX_SIZE] entries and keeps the oldest entry in any case; nothing is
    asked of the collaborators. *)
Theorem addState_appends (message : string) (cap : Capture) (w : Machine) :
  Reachable w ->
  saveState_ok cap = true ->
  saveDisplay_ok cap = true ->
  exists kept w',
    addState message cap w = Some (true, w') /\
    myStateList (rm w')
    = kept ++ [mkRewindState (serialized cap) (tia_cycles (console w))
                             (tia_frameCount (console w))] /\
    Subseq kept (myStateList (rm w)) /\
    hd_error kept = hd_error (myStateList (rm w)) /\
    (size (rm w) < MAX_SIZE -> kept = myStateList (rm w)) /\
    console w' = console w /\
    events w' = events w.
Proof.
  intros Hw Hs Hd. destruct (Reachable_inv w Hw) as [Hit Hsize].
  destruct (addState_captured message cap w Hs Hd Hit Hsize)
    as (kept & w' & Hadd & _ & Hkept & Hlist & _ & Hconsole & Hevents).
  exists kept, w'. split; [exact Hadd|]. split; [exact Hlist|].
  destruct Hkept as [[Hlt ->]|[Hfull Hc]].
  - split; [apply Subseq_refl|]. split; [reflexivity|]. tauto.
  - destruct (proj2 (compressStates_of_facts _) _ Hc) as (Hsub & Hhd & _).
    split; [exact Hsub|]. split; [exact Hhd|].
    split; [lia|]. tauto.
Qed.

Lemma addState_appends_witness :
  exists kept w',
    addState "" captured (after fullEvenly) = Some (true, w') /\
    myStateList (rm w') = kept ++ [snapshot 6780 113] /\
    Subseq kept (myStateList (rm (after fullEvenly))) /\
    hd_error kept = hd_error (myStateList (rm (after fullEvenly))) /\
    (size (rm (after fullEvenly)) < MAX_SIZE ->
     kept = myStateList (rm (after fullEvenly))) /\
    console w' = console (after fullEvenly) /\
    events w' = events (after fullEvenly).
Proof.
  apply (addState_appends "" captured (after fullEvenly)).
  - apply (calls_Reachable fullEvenly boot0).
    + apply Reach_boot.
    + vm_compute. reflexivity.
  - reflexivity.
  - reflexivity.
Defined.

Lemma call_capturing (c : Call) (w : Machine) :
  capturing c = true ->
  myCurrentIt (rm w) = ItEnd ->
  (length (myStateList (rm w)) + countCaptures [c] <= Z.to_nat MAX_SIZE)%nat ->
  exists w' news,
    call c w = Some (tt, w') /\
    myStateList (rm w') = myStateList (rm w) ++ news /\
    length news = countCaptures [c] /\
    myCurrentIt (rm w') = ItEnd.
Proof.
  intros Hc Hit Hroom.
  destruct c as [message cap|e|e| |dc df sl]; try discriminate; simpl in *.
  - apply andb_true_iff in Hc. destruct Hc as [Hs Hd].
    assert (Hsize : size (rm w) <= MAX_SIZE).
    { unfold size. rewrite MAX_SIZE_eq in *. lia. }
    destruct (addState_captured message cap w Hs Hd Hit Hsize)
      as (kept & w' & Hadd & _ & Hkept & Hlist & Hit' & _).
    exists w'. eexists. unfold bind. rewrite Hadd.
    split; [reflexivity|].
    destruct Hkept as [[_ ->]|[Hfull _]].
    + split; [exact Hlist|]. split; [reflexivity | exact Hit'].
    + unfold size in Hfull. rewrite MAX_SIZE_eq in *. lia.
  - eexists. exists []. split; [reflexivity|]. simpl.
    rewrite app_nil_r. repeat split. exact Hit.
Qed.

(** X14: While the list has room no capture removes an entry: a history of
    successful captures, with the emulator running in between, that ends
    with at most [MAX_SIZE] entries has appended one entry for each capture
    and kept all that were there. *)
Theorem captures_below_MAX_SIZE (cs : list Call) :
  forall w : Machine,
    Reachable w ->
    forallb capturing cs = true ->
    (length (myStateList (rm w)) + countCaptures cs <= Z.to_nat MAX_SIZE)%nat ->
    exists w' news,
      calls cs w = Some (tt, w') /\
      myStateList (rm w') = myStateList (rm w) ++ news /\
      length news = countCaptures cs.
Proof.
  induction cs as [|c cs IH]; intros w Hw Hall Hroom.
  - exists w, []. split; [reflexivity|]. rewrite app_nil_r.
    split; reflexivity.
  - simpl in Hall. apply andb_true_iff in Hall. destruct Hall as [Hc Hall].
    destruct (Reachable_inv w Hw) as [Hit _].
    assert (Hcount : countCaptures (c :: cs)
                     = (countCaptures [c] + countCaptures cs)%nat).
    { destruct c; reflexivity. }
    destruct (call_capturing c w Hc Hit) as (w1 & news1 & Hcall & Hl1 & Hn1 & _).
    { lia. }
    assert (Hw1 : Reachable w1) by exact (Reach_call w c w1 Hw Hcall).
    destruct (IH w1 Hw1 Hall) as (w' & news & Hcalls & Hl & Hn).
    { rewrite Hl1, length_app. lia. }
    exists w', (news1 ++ news). simpl calls. unfold bind. rewrite Hcall.
    split; [exact Hcalls|]. split.
    + rewrite Hl, Hl1, app_assoc. reflexivity.
    + rewrite length_app. lia.
Qed.

Lemma captures_below_MAX_SIZE_witness :
  exists w' news,
    calls (captures 60 100) (after (captures 100 12)) = Some (tt, w') /\
    myStateList (rm w') = myStateList (rm (after (captures 100 12))) ++ news /\
    length news = countCaptures (captures 60 100).
Proof.
  apply (captures_below_MAX_SIZE (captures 60 100) (after (captures 100 12))).
  - apply (calls_Reachable (captures 100 12) boot0).
    + apply Reach_boot.
    + vm_compute. reflexivity.
  - vm_compute. reflexivity.
  - apply Nat.leb_le. vm_compute. reflexivity.
Defined.

(** ** Captures with the clock ahead *)

Lemma cyclesIncrease_Sorted (l : list RewindState) :
  cyclesIncrease l = true <-> Sorted earlier l.
Proof.
  induction l as [|a l IH]; [split; [constructor | reflexivity]|].
  destruct l as [|b l].
  - split; [repeat constructor | reflexivity].
  - change (cyclesIncrease (a :: b :: l))
      with ((cycles a <? cycles b) && cyclesIncrease (b :: l)).
    rewrite andb_true_iff, Z.ltb_lt, IH. split.
    + intros [Hab Hs]. constructor; [exact Hs | constructor; exact Hab].
    + intros Hs. inversion Hs as [|? ? Hs' Hhd]; subst.
      inversion Hhd; subst. split; assumption.
Qed.

Lemma earlier_trans : Relations_1.Transitive earlier.
Proof. intros a b c. unfold earlier. lia. Qed.

Lemma cyclesIncrease_StronglySorted (l : list RewindState) :
  cyclesIncrease l = true <-> StronglySorted earlier l.
Proof.
  rewrite cyclesIncrease_Sorted. split.
  - apply Sorted_StronglySorted. exact earlier_trans.
  - apply StronglySorted_Sorted.
Qed.

Lemma StronglySorted_Subseq (l' l : list RewindState) :
  Subseq l' l -> StronglySorted earlier l -> StronglySorted earlier l'.
Proof.
  induction 1 as [|x l' l Hsub IH|x l' l Hsub IH]; intros Hs.
  - constructor.
  - inversion Hs; subst. constructor; [apply IH; assumption|].
    exact (Subseq_Forall _ _ _ Hsub H2).
  - inversion Hs; subst. apply IH; assumption.
Qed.

Lemma StronglySorted_snoc (l : list RewindState) (x : RewindState) :
  StronglySorted earlier l ->
  Forall (fun s => earlier s x) l ->
  StronglySorted earlier (l ++ [x]).
Proof.
  induction 1 as [|a l Hs IH Ha]; intros Hx; simpl.
  - repeat constructor.
  - inversion Hx; subst. constructor; [apply IH; assumption|].
    apply Forall_app. split; [exact Ha | repeat constructor; assumption].
Qed.

(** X15: A list whose cycles increase still has increasing cycles after
    [addState], if the TIA's cycles are beyond those of every entry when it
    is called: compaction keeps the order and the new entry is the latest. *)
Theorem addState_keeps_cycles_increasing (message : string) (cap : Capture)
        (w w' : Machine) (b : bool) :
  Reachable w ->
  cyclesIncrease (myStateList (rm w)) = true ->
  Forall (fun s => cycles s < tia_cycles (console w)) (myStateList (rm w)) ->
  addState message cap w = Some (b, w') ->
  cyclesIncrease (myStateList (rm w')) = true.
Proof.
  intros Hw Hinc Hahead Hadd.
  destruct (saveState_ok cap && saveDisplay_ok cap) eqn:Eok.
  - apply andb_true_iff in Eok. destruct Eok as [Hs Hd].
    destruct (Reachable_inv w Hw) as [Hit Hsize].
    destruct (addState_captured message cap w Hs Hd Hit Hsize)
      as (kept & w2 & Hadd' & _ & Hkept & Hlist & _).
    rewrite Hadd in Hadd'. injection Hadd' as _ <-.
    assert (Hsub : Subseq kept (myStateList (rm w))).
    { destruct Hkept as [[_ ->]|[_ Hc]]; [apply Subseq_refl|].
      exact (proj1 (proj2 (compressStates_of_facts _) _ Hc)). }
    rewrite Hlist. apply cyclesIncrease_StronglySorted.
    apply StronglySorted_snoc.
    + apply (StronglySorted_Subseq _ _ Hsub).
      apply cyclesIncrease_StronglySorted. exact Hinc.
    + exact (Subseq_Forall _ _ _ Hsub Hahead).
  - rewrite (addState_failed message cap w Eok) in Hadd.
    injection Hadd as _ <-. exact Hinc.
Qed.

Lemma addState_keeps_cycles_increasing_witness :
  cyclesIncrease
    (myStateList (rm (after (fullEvenly ++ [DoAddState "" captured])))) = true.
Proof.
  apply (addState_keeps_cycles_increasing
           "" captured (after fullEvenly)
           (after (fullEvenly ++ [DoAddState "" captured])) true).
  - apply (calls_Reachable fullEvenly boot0).
    + apply Reach_boot.
    + vm_compute. reflexivity.
  - vm_compute. reflexivity.
  - apply Forall_forall. intros s Hs.
    apply Z.ltb_lt.
    revert s Hs.
    apply (proj1 (forallb_forall
                    (fun s => cycles s <? tia_cycles (console (after fullEvenly)))
                    (myStateList (rm (after fullEvenly))))).
    vm_compute. reflexivity.
  - vm_compute. reflexivity.
Defined.

(** ** debugList *)

Lemma frameSteps_length (l : list RewindState) :
  forall c, length (frameSteps c l) = length l.
Proof. induction l as [|a l IH]; intros c; simpl; [|rewrite IH]; reflexivity. Qed.

Lemma frameSteps_nth (d : RewindState) (l : list RewindState) :
  forall (c : Z) (i : nat),
    (S i < length l)%nat ->
    nth (S i) (frameSteps c l) 0
    = wrap64 (frames (nth (S i) l d) - frames (nth i l d)).
Proof.
  induction l as [|a l IH]; intros c i Hi; simpl in Hi; [lia|].
  destruct i as [|j].
  - destruct l as [|b l]; simpl in Hi; [lia | reflexivity].
  - change (nth (S (S j)) (frameSteps c (a :: l)) 0)
      with (nth (S j) (frameSteps (frames a) l) 0).
    rewrite IH by lia. reflexivity.
Qed.

(** X16: [debugList] returns only on a list that is not empty and has at most
    [MAX_SIZE] entries.  It then stores 0 in the first cell of
    [myFrameLst], in cell [i + 1] the frames between entry [i] and entry
    [i + 1], and leaves the cells from the size of the list on as they
    were. *)
Theorem debugList_of_cells (d : RewindState) (l : list RewindState)
        (a a' : list Z) :
  debugList_of l a = Some a' ->
  l <> [] /\
  Z.of_nat (length l) <= MAX_SIZE /\
  nth 0 a' 0 = 0 /\
  (forall i, (S i < length l)%nat ->
             nth (S i) a' 0
             = wrap64 (frames (nth (S i) l d) - frames (nth i l d))) /\
  (forall i, (length l <= i)%nat -> nth i a' 0 = nth i a 0) /\
  ((length l <= length a)%nat -> length a' = length a).
Proof.
  unfold debugList_of. destruct l as [|first rest] eqn:El; [discriminate|].
  rewrite <- El.
  destruct (Z.of_nat (length l) <=? MAX_SIZE) eqn:Esize; [|discriminate].
  intros H. injection H as <-. apply Z.leb_le in Esize.
  split; [rewrite El; discriminate|]. split; [exact Esize|].
  split; [|split; [|split]].
  - rewrite El. simpl. apply wrap64_diag.
  - intros i Hi. rewrite app_nth1 by (rewrite frameSteps_length; lia).
    apply frameSteps_nth. exact Hi.
  - intros i Hi. rewrite app_nth2 by (rewrite frameSteps_length; lia).
    rewrite frameSteps_length, nth_skipn. f_equal. lia.
  - intros Hle. rewrite length_app, frameSteps_length, length_skipn. lia.
Qed.

Lemma debugList_of_cells_witness :
  exists a',
    debugList_of [snapshot 100 1; snapshot 200 4; snapshot 300 9]
                 [7; 7; 7; 7; 7] = Some a' /\
    a' = [0; 3; 5; 7; 7] /\
    nth 0 a' 0 = 0 /\
    (forall i, (S i < 3)%nat ->
               nth (S i) a' 0
               = wrap64 (frames (nth (S i) [snapshot 100 1; snapshot 200 4;
                                            snapshot 300 9] (snapshot 0 0))
                         - frames (nth i [snapshot 100 1; snapshot 200 4;
                                          snapshot 300 9] (snapshot 0 0)))) /\
    (forall i, (3 <= i)%nat -> nth i a' 0 = nth i [7; 7; 7; 7; 7] 0).
Proof.
  assert (E : debugList_of [snapshot 100 1; snapshot 200 4; snapshot 300 9]
                           [7; 7; 7; 7; 7] = Some [0; 3; 5; 7; 7])
    by (vm_compute; reflexivity).
  destruct (debugList_of_cells (snapshot 0 0) _ _ _ E)
    as (_ & _ & H0 & Hsteps & Hrest & _).
  exists [0; 3; 5; 7; 7].
  split; [exact E|]. split; [reflexivity|]. split; [exact H0|].
  split; [exact Hsteps | exact Hrest].
Defined.
